(** * The gradio JavaScript client ([client/js/src/client.ts])

    A shallow embedding of the submission protocol engine of the client:
    the transport decision ([skip_queue]), the frame interpreter
    ([handle_message]) and the socket handler built on it, the listener
    registry ([on], [off], [fire_event]), cancellation, the blob walk
    ([walk_and_store_blobs], [update_object], [handle_blob]), the schema
    normaliser ([get_type], [transform_api_info], [view_api]) and the
    space wake-poll loop ([check_space_status], [handle_space_sucess]).

    JavaScript values are an inductive type; asynchronous callbacks are the
    inputs of a step function on an explicit world state; a thrown
    [TypeError] is [None]. *)

From stdpp Require Import gmap strings list pretty.
From Stdlib Require Import ZArith Ascii.

(** ** JavaScript values *)

(** The members of [Object.prototype]: eleven functions and, under
    "__proto__", the prototype object itself. *)
Inductive builtin :=
| BConstructor
| BHasOwnProperty
| BIsPrototypeOf
| BPropertyIsEnumerable
| BToLocaleString
| BToString
| BValueOf
| BDefineGetter
| BDefineSetter
| BLookupGetter
| BLookupSetter
| BProto.

(** The values the client handles: JSON documents (config, frames, payloads)
    extended with [undefined] and with the two binary kinds the blob walk
    distinguishes, a Node [Buffer] and a [Blob].  Numbers are carried
    through unchanged and never computed on, so integers stand for them.  An
    object is its own enumerable properties in [for ... in] order.
    [VBuiltin f] is a member that every plain object inherits from
    [Object.prototype]: it is what a read under the name of [f] finds in
    an object that has no property of its own under that name. *)
#[local] Unset Elimination Schemes.
Inductive value : Type :=
| VUndefined
| VNull
| VBool (b : bool)
| VNum (n : Z)
| VStr (s : string)
| VBuffer (bytes : list Z)
| VBlob (bytes : list Z)
| VArr (elems : list value)
| VObj (props : list (string * value))
| VBuiltin (f : builtin).
#[local] Set Elimination Schemes.

(** Structural induction that reaches below arrays and objects. *)
Section value_induction.
Variable P : value → Prop.
Hypothesis Hundef : P VUndefined.
Hypothesis Hnull : P VNull.
Hypothesis Hbool : ∀ b, P (VBool b).
Hypothesis Hnum : ∀ n, P (VNum n).
Hypothesis Hstr : ∀ s, P (VStr s).
Hypothesis Hbuffer : ∀ bs, P (VBuffer bs).
Hypothesis Hblob : ∀ bs, P (VBlob bs).
Hypothesis Harr : ∀ xs, Forall P xs → P (VArr xs).
Hypothesis Hobj : ∀ kvs, Forall (λ kv, P kv.2) kvs → P (VObj kvs).
Hypothesis Hbuiltin : ∀ f, P (VBuiltin f).

Fixpoint value_deep_ind (v : value) : P v :=
  match v with
  | VUndefined => Hundef
  | VNull => Hnull
  | VBool b => Hbool b
  | VNum n => Hnum n
  | VStr s => Hstr s
  | VBuffer bs => Hbuffer bs
  | VBlob bs => Hblob bs
  | VArr xs =>
      Harr xs
        ((fix elems (l : list value) : Forall P l :=
            match l with
            | [] => Forall_nil_2 P
            | x :: l' => Forall_cons_2 P x l' (value_deep_ind x) (elems l')
            end) xs)
  | VObj kvs =>
      Hobj kvs
        ((fix props (l : list (string * value)) : Forall (λ kv, P kv.2) l :=
            match l with
            | [] => Forall_nil_2 _
            | kv :: l' =>
                Forall_cons_2 (λ kv, P kv.2) kv l'
                  (value_deep_ind kv.2) (props l')
            end) kvs)
  | VBuiltin f => Hbuiltin f
  end.
End value_induction.

(** [ToBoolean]: the falsy values are [undefined], [null], [false], [0]
    and the empty string. *)
Definition truthy (v : value) : bool :=
  match v with
  | VUndefined | VNull => false
  | VBool b => b
  | VNum n => negb (Z.eqb n 0)
  | VStr s => negb (String.eqb s "")
  | _ => true
  end.

Definition nullish (v : value) : bool :=
  match v with
  | VUndefined | VNull => true
  | _ => false
  end.

(** [a || b] *)
Definition js_or (a b : value) : value := if truthy a then a else b.

(** [v === null] *)
Definition is_null (v : value) : bool :=
  match v with
  | VNull => true
  | _ => false
  end.

(** [v === "s"] *)
Definition is_str (v : value) (s : string) : bool :=
  match v with
  | VStr s' => String.eqb s' s
  | _ => false
  end.

(** First binding of a key in a property list. *)
Fixpoint assoc (k : string) (kvs : list (string * value)) : option value :=
  match kvs with
  | [] => None
  | (k', v) :: rest => if String.eqb k' k then Some v else assoc k rest
  end.

(** Reading a named own property.  The names read by the client are fixed
    identifiers ([msg], [queue], [output], ...), none of which a primitive,
    an array or a binary value carries, so only objects answer. *)
Definition field (o : value) (k : string) : value :=
  match o with
  | VObj kvs => default VUndefined (assoc k kvs)
  | _ => VUndefined
  end.

(** [o.k]: a [TypeError] on [undefined] and [null]. *)
Definition member (o : value) (k : string) : option value :=
  if nullish o then None else Some (field o k).

(** [o?.k] *)
Definition opt_member (o : value) (k : string) : value :=
  if nullish o then VUndefined else field o k.

(** The name under which a plain object inherits each member. *)
Definition builtin_name (f : builtin) : string :=
  match f with
  | BConstructor => "constructor"
  | BHasOwnProperty => "hasOwnProperty"
  | BIsPrototypeOf => "isPrototypeOf"
  | BPropertyIsEnumerable => "propertyIsEnumerable"
  | BToLocaleString => "toLocaleString"
  | BToString => "toString"
  | BValueOf => "valueOf"
  | BDefineGetter => "__defineGetter__"
  | BDefineSetter => "__defineSetter__"
  | BLookupGetter => "__lookupGetter__"
  | BLookupSetter => "__lookupSetter__"
  | BProto => "__proto__"
  end.

Definition builtins : list builtin :=
  [BConstructor; BHasOwnProperty; BIsPrototypeOf; BPropertyIsEnumerable;
   BToLocaleString; BToString; BValueOf; BDefineGetter; BDefineSetter;
   BLookupGetter; BLookupSetter; BProto].

(** The member inherited under the name [k], if there is one. *)
Definition builtin_of_name (k : string) : option builtin :=
  find (λ f, String.eqb (builtin_name f) k) builtins.

(** What a read under [k] finds in a plain object that has no property of
    its own under [k]. *)
Definition inherited (k : string) : value :=
  from_option VBuiltin VUndefined (builtin_of_name k).

(** ** Configuration and the transport decision *)

(** The part of [Config] that the submission engine reads.  The dependency
    records are the JSON objects the server declared. *)
Record Config := {
  enable_queue : bool;
  dependencies : list value;
  path : string;
}.

(** [arr?.[id]] on an array: an element for an index in range,
    [undefined] for every other key. *)
Definition at_index (arr : list value) (id : value) : value :=
  match id with
  | VNum n => if Z.leb 0 n then default VUndefined (arr !! Z.to_nat n) else VUndefined
  | _ => VUndefined
  end.

(** [config?.dependencies?.[id]?.queue] *)
Definition dependency_queue (id : value) (config : Config) : value :=
  opt_member (at_index (dependencies config) id) "queue".

Definition skip_queue (id : value) (config : Config) : bool :=
  negb (truthy (if is_null (dependency_queue id config)
                then VBool (enable_queue config)
                else dependency_queue id config))
  || false.

(** ** Schema documents and their normalisation *)

(** A raw parameter descriptor ([ApiData]); its [type] member is an object
    and is kept as that object's properties. *)
Record ApiData := {
  api_label : string;
  api_type : list (string * value);
  api_component : string;
  api_example_input : value;
}.

(** A normalised descriptor, as [transform_api_info] builds it. *)
Record JsApiData := {
  js_label : string;
  js_component : string;
  js_type : value;
  js_description : value;
}.

Record EndpointInfo (T : Type) := {
  parameters : list T;
  returns : list T;
}.
Arguments parameters {T} _.
Arguments returns {T} _.

Record ApiInfo (T : Type) := {
  named_endpoints : gmap string (EndpointInfo T);
  unnamed_endpoints : gmap string (EndpointInfo T);
}.
Arguments named_endpoints {T} _.
Arguments unnamed_endpoints {T} _.

Definition file_type : string :=
  "Record<{ name: string; data: string; size?: number; is_file?: boolean; orig_name?: string}> | { name: string; data: string; size?: number; is_file?: boolean; orig_name?: string}".

Definition get_type (type : list (string * value)) (component : string) : value :=
  let ty := VObj type in
  if is_str (field ty "type") "string" then VStr "string"
  else if is_str (field ty "type") "boolean" then VStr "boolean"
  else if is_str (field ty "type") "number" then VStr "number"
  else if is_str (field ty "description") "any valid value"
          || is_str (field ty "description") "any valid json"
  then VStr "any"
  else if is_str (field ty "type") "array"
          && is_str (opt_member (opt_member ty "items") "type") "string"
  then VStr "string[]"
  else if String.eqb component "Image" then VStr "string"
  else if truthy (opt_member (field ty "type") "oneOf") then VStr file_type
  else if truthy (opt_member (opt_member (opt_member ty "type") "items")
                    "prefixItems")
  then VStr ""
  else VUndefined.

(** The first two branches test the same component name, so the second is
    never taken. *)
Definition get_description (type : list (string * value)) (component : string)
    : value :=
  let ty := VObj type in
  if String.eqb component "Gallery" then VUndefined
  else if String.eqb component "Gallery" then VStr "Array of files"
  else if truthy (opt_member (opt_member ty "type") "oneOf")
  then VStr "Array of files or single file"
  else field ty "description".

Definition transform_parameter (p : ApiData) : JsApiData :=
  {| js_label := api_label p;
     js_component := api_component p;
     js_type := get_type (api_type p) (api_component p);
     js_description := get_description (api_type p) (api_component p) |}.

(** Both member lists of a normalised endpoint are mapped from the raw
    [parameters]. *)
Definition transform_endpoint (info : EndpointInfo ApiData)
    : EndpointInfo JsApiData :=
  {| parameters := transform_parameter <$> parameters info;
     returns := transform_parameter <$> parameters info |}.

Definition transform_api_info (api_info : ApiInfo ApiData) : ApiInfo JsApiData :=
  {| named_endpoints := transform_endpoint <$> named_endpoints api_info;
     unnamed_endpoints := transform_endpoint <$> unnamed_endpoints api_info |}.

(** The aliasing step of [view_api], on the document fetched from [/info]. *)
Definition alias_predict (api_info : ApiInfo ApiData) : ApiInfo ApiData :=
  match named_endpoints api_info !! "/predict", unnamed_endpoints api_info !! "0" with
  | Some e, None =>
      {| named_endpoints := named_endpoints api_info;
         unnamed_endpoints := <["0" := e]> (unnamed_endpoints api_info) |}
  | _, _ => api_info
  end.

(** [view_api] once the [/info] document has arrived. *)
Definition view_api (api_info : ApiInfo ApiData) : ApiInfo JsApiData :=
  transform_api_info (alias_predict api_info).

(** An endpoint is addressed by name or by number. *)
Inductive endpoint_ref :=
| EName (name : string)
| EIndex (n : Z).

(** [endpoint.replace(/^\//, "")] *)
Definition trim_endpoint (endpoint : string) : string :=
  match endpoint with
  | String "/"%char rest => rest
  | _ => endpoint
  end.

(** What [api.named_endpoints[endpoint]] and [api.unnamed_endpoints[endpoint]]
    can be: nothing, an entry of the document, or, for a name that is on
    [Object.prototype] and not in the document, the inherited member of that
    name, which has no [parameters]. *)
Inductive api_entry :=
| NoEntry
| Entry (info : EndpointInfo JsApiData)
| InheritedEntry (f : builtin).

(** [endpoints[k]] on the plain object [endpoints]. *)
Definition endpoint_entry (endpoints : gmap string (EndpointInfo JsApiData))
    (k : string) : api_entry :=
  match endpoints !! k with
  | Some info => Entry info
  | None =>
      match builtin_of_name k with
      | Some f => InheritedEntry f
      | None => NoEntry
      end
  end.

(** The first lines of [submit]: the schema entry of the endpoint.  A
    number used as a property key is its decimal string. *)
Definition resolve_api_info (api : ApiInfo JsApiData) (endpoint : endpoint_ref)
    : api_entry :=
  match endpoint with
  | EIndex n => endpoint_entry (unnamed_endpoints api) (pretty n)
  | EName s => endpoint_entry (named_endpoints api) s
  end.

(** [api_map[trimmed_endpoint]] on the plain object [api_map]. *)
Definition resolve_fn_index (api_map : gmap string Z) (endpoint : endpoint_ref)
    : value :=
  match endpoint with
  | EIndex n => VNum n
  | EName s =>
      from_option VNum (inherited (trim_endpoint s))
        (api_map !! trim_endpoint s)
  end.

Definition resolve_endpoint (endpoint : endpoint_ref) : string :=
  match endpoint with
  | EIndex _ => "/predict"
  | EName s => s
  end.

(** ** Blob extraction and reinsertion *)

(** A path component: an array index or an object key. *)
Inductive key :=
| KIdx (i : nat)
| KKey (k : string).

Record blob_ref := {
  ref_path : list key;
  ref_blob : value;
  ref_data : value;
  ref_type : value;
}.

(** What the walk and the reinsertion take from their surroundings: the
    base64 encoder of a [Buffer], the [FileReader] data-URI encoder, whether
    a [window] exists, and the answer of the upload route to one blob
    ([None] when [upload_files] fails or returns its error object). *)
Record platform := {
  to_base64 : list Z → string;
  image_to_data_uri : list Z → string;
  in_browser : bool;
  upload_files : value → option (list string);
}.

(** [api_info?.parameters[i]?.component || undefined].  [None] is the
    [TypeError] of indexing the [parameters] of an inherited member, which
    is [undefined]. *)
Definition declared_component (api_info : api_entry) (i : nat) : option value :=
  match api_info with
  | Entry info =>
      Some match parameters info !! i with
           | Some p => js_or (VStr (js_component p)) VUndefined
           | None => VUndefined
           end
  | NoEntry => Some VUndefined
  | InheritedEntry _ => None
  end.

(** The truth value of [f.call(param, arg)] for a member [f] of
    [Object.prototype], a plain object [param] with the properties [props]
    and an argument that is a property name or is left out ([None], which
    these functions read as the name "undefined").  [hasOwnProperty] and
    [propertyIsEnumerable] answer whether [param] has the property;
    [isPrototypeOf] answers [false] for an argument that is not an object;
    [__lookupGetter__] and [__lookupSetter__] answer [undefined], no
    property of [param] or of its prototype being an accessor under such a
    name; [valueOf] answers [param], [toString] a string that is not
    empty, the constructor a new object; [toLocaleString] answers what
    [param.toString()] does, which is [to_string].  [__defineGetter__] and
    [__defineSetter__] throw for want of a function as second argument,
    and the prototype object is not a function: [None]. *)
Definition builtin_truth (f : builtin) (props : list (string * value))
    (arg : option string) (to_string : option bool) : option bool :=
  match f with
  | BHasOwnProperty | BPropertyIsEnumerable =>
      Some (bool_decide (is_Some (assoc (default "undefined" arg) props)))
  | BIsPrototypeOf | BLookupGetter | BLookupSetter => Some false
  | BConstructor | BToString | BValueOf => Some true
  | BToLocaleString => to_string
  | BDefineGetter | BDefineSetter | BProto => None
  end.

(** The truth value of [param.toString()]: of the inherited function, or of
    the object's own property of that name when it is one of the inherited
    members.  A [toString] that is [toLocaleString] calls itself without
    end, and a [toString] that is no function cannot be called: [None]. *)
Definition to_string_truth (props : list (string * value)) : option bool :=
  match assoc "toString" props with
  | None => Some true
  | Some (VBuiltin f) => builtin_truth f props None None
  | Some _ => None
  end.

(** [param.hasOwnProperty(key)] as the condition of the [if], for a key of
    the [for ... in] loop.  Without a property of its own of that name the
    object calls the inherited function, whose answer for a key of the loop
    is [true].  With one, its value is called, and a value that is no
    function throws: [None]. *)
Definition has_own_property (props : list (string * value)) (key : string)
    : option bool :=
  match assoc "hasOwnProperty" props with
  | None => Some true
  | Some (VBuiltin f) =>
      builtin_truth f props (Some key) (to_string_truth props)
  | Some _ => None
  end.

Section blobs.
Variable pf : platform.

(** [walk_and_store_blobs]: the references it resolves with, [None] when it
    throws.  It throws when the call [param.hasOwnProperty(key)] throws,
    and when the component of an argument is read from an inherited
    member.  The references are listed in element order.  The source
    concatenates them as the recursive calls complete, so its list is a
    permutation of this one. *)
Fixpoint walk_and_store_blobs (param : value) (type : value) (path : list key)
    (root : bool) (api_info : api_entry) {struct param}
    : option (list blob_ref) :=
  match param with
  | VArr elems =>
      (fix each (l : list value) (i : nat) {struct l} : option (list blob_ref) :=
         match l with
         | [] => Some []
         | v :: l' =>
             match (if root then declared_component api_info i else Some type) with
             | Some component =>
                 match walk_and_store_blobs v component (path ++ [KIdx i])
                         false api_info with
                 | Some array_refs =>
                     match each l' (S i) with
                     | Some rest => Some (array_refs ++ rest)
                     | None => None
                     end
                 | None => None
                 end
             | None => None
             end
         end) elems 0%nat
  | VBuffer bytes =>
      let is_image := is_str type "Image" in
      Some [ {| ref_path := path;
                ref_blob := if is_image then VBool false else VBlob bytes;
                ref_data := if is_image then VStr (to_base64 pf bytes)
                            else VBool false;
                ref_type := type |} ]
  | VBlob bytes =>
      if is_str type "Image" then
        Some [ {| ref_path := path;
                  ref_blob := VUndefined;
                  ref_data := VStr (if in_browser pf
                                    then image_to_data_uri pf bytes
                                    else to_base64 pf bytes);
                  ref_type := type |} ]
      else
        Some [ {| ref_path := path;
                  ref_blob := param;
                  ref_data := VUndefined;
                  ref_type := type |} ]
  | VObj props =>
      (fix each (l : list (string * value)) {struct l} : option (list blob_ref) :=
         match l with
         | [] => Some []
         | (k, v) :: l' =>
             match has_own_property props k with
             | Some true =>
                 match walk_and_store_blobs v VUndefined (path ++ [KKey k])
                         false api_info with
                 | Some refs =>
                     match each l' with
                     | Some rest => Some (refs ++ rest)
                     | None => None
                     end
                 | None => None
                 end
             | Some false => each l'
             | None => None
             end
         end) props
  | _ => Some []
  end.

(** The key string of a path component. *)
Definition key_string (k : key) : string :=
  match k with
  | KIdx i => pretty i
  | KKey s => s
  end.

(** The element a key denotes in an array of [len] elements. *)
Definition array_index (k : key) (len : nat) : option nat :=
  match k with
  | KIdx i => Some i
  | KKey s => fst <$> list_find (λ i, bool_decide (pretty i = s)) (seq 0 len)
  end.

(** [object[k]] as a read.  An object answers with its own property, and
    without one with the member it inherits under [k], if any.  [None]
    stands for the [TypeError] on [undefined] and [null], and for the reads
    this model has no answer to: members of primitives, of inherited
    members and of binary values, non-index properties of arrays, and the
    inherited accessor "__proto__", to which an assignment creates no
    property. *)
Definition get_prop (object : value) (k : key) : option value :=
  match object with
  | VArr l =>
      match array_index k (length l) with
      | Some i => Some (default VUndefined (l !! i))
      | None => None
      end
  | VObj kvs =>
      match assoc (key_string k) kvs with
      | Some v => Some v
      | None =>
          if String.eqb (key_string k) "__proto__" then None
          else Some (inherited (key_string k))
      end
  | _ => None
  end.

(** Successive indexing by the components of a path. *)
Fixpoint get_path (object : value) (path : list key) : option value :=
  match path with
  | [] => Some object
  | k :: rest => child ← get_prop object k; get_path child rest
  end.

Fixpoint assoc_set (k : string) (v : value) (kvs : list (string * value))
    : list (string * value) :=
  match kvs with
  | [] => [(k, v)]
  | (k', v') :: rest =>
      if String.eqb k' k then (k, v) :: rest else (k', v') :: assoc_set k v rest
  end.

(** [object[k] = v]: the container after the assignment.  Writing past
    the end of an array leaves holes, which read as [undefined].  [None]
    as for [get_prop]; in particular an assignment to "__proto__" in an
    object without such a property of its own goes to the inherited
    accessor. *)
Definition set_prop (object : value) (k : key) (v : value) : option value :=
  match object with
  | VArr l =>
      match array_index k (length l) with
      | Some i =>
          if bool_decide (i < length l)%nat then Some (VArr (<[i:=v]> l))
          else Some (VArr (l ++ replicate (i - length l) VUndefined ++ [v]))
      | None => None
      end
  | VObj kvs =>
      match assoc (key_string k) kvs with
      | None =>
          if String.eqb (key_string k) "__proto__" then None
          else Some (VObj (assoc_set (key_string k) v kvs))
      | Some _ => Some (VObj (assoc_set (key_string k) v kvs))
      end
  | _ => None
  end.

(** [update_object] mutates the container reached through all but the last
    component; here the changed root is returned.  On an empty stack
    [stack.shift()] is [undefined], so the key written is "undefined". *)
Fixpoint update_object (object : value) (newValue : value) (stack : list key)
    : option value :=
  match stack with
  | [] => set_prop object (KKey "undefined") newValue
  | [k] => set_prop object k newValue
  | k :: rest =>
      child ← get_prop object k;
      child' ← update_object child newValue rest;
      set_prop object k child'
  end.

(** One element of the [Promise.all] of [handle_blob]. *)
Record upload_result := {
  up_path : list key;
  up_file_url : option string;
  up_base64 : value;
  up_type : value;
}.

Definition upload_ref (r : blob_ref) : option upload_result :=
  if truthy (ref_blob r) then
    files ← upload_files pf (ref_blob r);
    Some {| up_path := ref_path r; up_file_url := head files;
            up_base64 := VUndefined; up_type := ref_type r |}
  else
    Some {| up_path := ref_path r; up_file_url := None;
            up_base64 := ref_data r; up_type := ref_type r |}.

Definition reinsert (data : value) (u : upload_result) : option value :=
  if truthy (up_base64 u) then update_object data (up_base64 u) (up_path u)
  else if is_str (up_type u) "Gallery" then
    update_object data (from_option VStr VUndefined (up_file_url u)) (up_path u)
  else
    match up_file_url u with
    | Some file_url =>
        if truthy (VStr file_url) then
          update_object data
            (VObj [("is_file", VBool true); ("name", VStr file_url);
                   ("data", VNull)])
            (up_path u)
        else Some data
    | None => Some data
    end.

Fixpoint reinsert_all (data : value) (r : list upload_result) : option value :=
  match r with
  | [] => Some data
  | u :: r' => data' ← reinsert data u; reinsert_all data' r'
  end.

(** [handle_blob] from the references on: the uploads and the
    reinsertions, in the order of the references. *)
Definition reinsert_refs (data : value) (blob_refs : list blob_ref)
    : option value :=
  r ← mapM upload_ref blob_refs;
  reinsert_all data r.

(** [handle_blob]: the value its promise resolves with.  [None] when the
    promise does not resolve: it is rejected when the walk throws, and it
    stays pending when an upload or a reinsertion throws.  [None] also
    when a reinsertion has no answer in this model (see [get_prop]), which
    no path recorded below an array or object leads to. *)
Definition handle_blob (data : value) (api_info : api_entry) : option value :=
  blob_refs ← walk_and_store_blobs data VUndefined [] true api_info;
  reinsert_refs data blob_refs.
End blobs.

(** The number of [Buffer] and [Blob] leaves of a payload tree. *)
Fixpoint binary_leaves (v : value) : nat :=
  match v with
  | VBuffer _ | VBlob _ => 1
  | VArr elems =>
      (fix total (l : list value) : nat :=
         match l with
         | [] => 0
         | x :: l' => binary_leaves x + total l'
         end) elems
  | VObj props =>
      (fix total (l : list (string * value)) : nat :=
         match l with
         | [] => 0
         | (_, x) :: l' => binary_leaves x + total l'
         end) props
  | _ => 0
  end%nat.

Definition is_binary (v : value) : bool :=
  match v with
  | VBuffer _ | VBlob _ => true
  | _ => false
  end.

(** A JavaScript object has one value per key: no key occurs twice among
    the properties of any object of the tree. *)
Fixpoint distinct_keys (v : value) : bool :=
  match v with
  | VArr elems =>
      (fix all (l : list value) : bool :=
         match l with
         | [] => true
         | x :: l' => distinct_keys x && all l'
         end) elems
  | VObj props =>
      bool_decide (NoDup props.*1)
      && (fix all (l : list (string * value)) : bool :=
            match l with
            | [] => true
            | (_, x) :: l' => distinct_keys x && all l'
            end) props
  | _ => true
  end.

(** ** Events and the frame interpreter *)

Definition QUEUE_FULL_MSG : string := "This application is too busy. Keep trying!".
Definition BROKEN_CONNECTION_MSG : string := "Connection errored out.".

(** The members of a status update.  A member the source leaves out is
    [VUndefined], which is what a listener reads from it. *)
Record Status := {
  st_status : value;
  st_queue : value;
  st_message : value;
  st_size : value;
  st_position : value;
  st_eta : value;
  st_progress : value;
}.

Definition empty_status : Status :=
  {| st_status := VUndefined; st_queue := VUndefined; st_message := VUndefined;
     st_size := VUndefined; st_position := VUndefined; st_eta := VUndefined;
     st_progress := VUndefined |}.

Inductive Event :=
| StatusEvent (endpoint : string) (fn_index : value) (status : Status)
| DataEvent (endpoint : string) (fn_index : value) (data : value).

(** [event.type] *)
Definition event_type (e : Event) : string :=
  match e with
  | StatusEvent _ _ _ => "status"
  | DataEvent _ _ _ => "data"
  end.

Inductive message_type :=
| TyHash | TyData | TyUpdate | TyComplete | TyGenerating | TyNone.

Record handled := {
  h_type : message_type;
  h_data : value;
  h_status : option Status;
}.

(** [handle_message]; [None] is the [TypeError] of reading a member of
    [null] or [undefined] ([data.msg], [data.output.error],
    [data.output.average_duration]). *)
Definition handle_message (data : value) (last_status : value) : option handled :=
  let queue := VBool true in
  msg ← member data "msg";
  if is_str msg "send_data" then
    Some {| h_type := TyData; h_data := VUndefined; h_status := None |}
  else if is_str msg "send_hash" then
    Some {| h_type := TyHash; h_data := VUndefined; h_status := None |}
  else if is_str msg "queue_full" then
    Some {| h_type := TyUpdate; h_data := VUndefined;
            h_status := Some {| st_queue := queue;
                                st_message := VStr QUEUE_FULL_MSG;
                                st_status := VStr "error";
                                st_size := VUndefined; st_position := VUndefined;
                                st_eta := VUndefined; st_progress := VUndefined |} |}
  else if is_str msg "estimation" then
    Some {| h_type := TyUpdate; h_data := VUndefined;
            h_status := Some {| st_queue := queue;
                                st_status := js_or last_status (VStr "pending");
                                st_size := field data "queue_size";
                                st_position := field data "rank";
                                st_eta := field data "rank_eta";
                                st_message := VUndefined;
                                st_progress := VUndefined |} |}
  else if is_str msg "progress" then
    Some {| h_type := TyUpdate; h_data := VUndefined;
            h_status := Some {| st_queue := queue;
                                st_status := VStr "pending";
                                st_progress := field data "progress_data";
                                st_message := VUndefined; st_size := VUndefined;
                                st_position := VUndefined; st_eta := VUndefined |} |}
  else if is_str msg "process_generating" then
    message ← (if negb (truthy (field data "success"))
               then member (field data "output") "error"
               else Some VNull);
    Some {| h_type := TyGenerating;
            h_status := Some {| st_queue := queue;
                                st_message := message;
                                st_status := if truthy (field data "success")
                                             then VStr "generating" else VStr "error";
                                st_progress := field data "progress_data";
                                st_eta := field data "average_duration";
                                st_size := VUndefined; st_position := VUndefined |};
            h_data := if truthy (field data "success")
                      then field data "output" else VNull |}
  else if is_str msg "process_completed" then
    message ← (if negb (truthy (field data "success"))
               then member (field data "output") "error"
               else Some VUndefined);
    eta ← member (field data "output") "average_duration";
    Some {| h_type := TyComplete;
            h_status := Some {| st_queue := queue;
                                st_message := message;
                                st_status := if truthy (field data "success")
                                             then VStr "complete" else VStr "error";
                                st_progress := field data "progress_data";
                                st_eta := eta;
                                st_size := VUndefined; st_position := VUndefined |};
            h_data := if truthy (field data "success")
                      then field data "output" else VNull |}
  else if is_str msg "process_starts" then
    Some {| h_type := TyUpdate; h_data := VUndefined;
            h_status := Some {| st_queue := queue;
                                st_status := VStr "pending";
                                st_size := field data "rank";
                                st_position := VNum 0;
                                st_message := VUndefined; st_eta := VUndefined;
                                st_progress := VUndefined |} |}
  else
    Some {| h_type := TyNone; h_data := VUndefined;
            h_status := Some {| st_status := VStr "error"; st_queue := queue;
                                st_message := VUndefined; st_size := VUndefined;
                                st_position := VUndefined; st_eta := VUndefined;
                                st_progress := VUndefined |} |}.

(** The tags [handle_message] has a case for. *)
Definition protocol_tags : list string :=
  ["send_data"; "send_hash"; "queue_full"; "estimation"; "progress";
   "process_generating"; "process_completed"; "process_starts"].

(** ** The listener registry *)

(** A listener is a callback; callbacks are compared by identity, which a
    number stands for. *)
Definition listener := nat.

(** [listener_map[event.type] || []], each listener called with the event,
    in the order of the list. *)
Definition fire_event (listener_map : gmap string (list listener)) (e : Event)
    : list (listener * Event) :=
  (λ l, (l, e)) <$> default [] (listener_map !! event_type e).

Definition on (listener_map : gmap string (list listener)) (eventType : string)
    (l : listener) : gmap string (list listener) :=
  <[eventType := default [] (listener_map !! eventType) ++ [l]]> listener_map.

Definition off (listener_map : gmap string (list listener)) (eventType : string)
    (l : listener) : gmap string (list listener) :=
  <[eventType := filter (λ l', l' ≠ l) (default [] (listener_map !! eventType))]>
    listener_map.

(** ** The submission engine *)

(** The [websocket] variable of a submission: unassigned, assigned by
    [new WebSocket(url)], and after [close()] was called on it. *)
Inductive socket := NoSocket | SocketOpen | SocketClosed.

(** The closure that one call of [submit] creates. *)
Record submission := {
  sub_endpoint : string;
  sub_fn_index : value;
  sub_event_data : value;
  sub_blobs : option value;
  sub_payload : value;
  sub_websocket : socket;
}.

(** The variables of the [client] closure.  [type_error_message] is the
    text the engine gives the [TypeError] of a member read on [null] or
    [undefined]. *)
Record client := {
  config : Config;
  api : ApiInfo JsApiData;
  api_map : gmap string Z;
  session_hash : string;
  last_status : gmap string value;
  listener_map : gmap string (list listener);
  submissions : list submission;
  type_error_message : string;
}.

Definition with_listener_map (c : client) (lm : gmap string (list listener))
    : client :=
  {| config := config c; api := api c; api_map := api_map c;
     session_hash := session_hash c; last_status := last_status c;
     listener_map := lm; submissions := submissions c;
     type_error_message := type_error_message c |}.

Definition with_submissions (c : client) (subs : list submission) : client :=
  {| config := config c; api := api c; api_map := api_map c;
     session_hash := session_hash c; last_status := last_status c;
     listener_map := listener_map c; submissions := subs;
     type_error_message := type_error_message c |}.

Definition with_payload (sub : submission) (payload : value) : submission :=
  {| sub_endpoint := sub_endpoint sub; sub_fn_index := sub_fn_index sub;
     sub_event_data := sub_event_data sub; sub_blobs := sub_blobs sub;
     sub_payload := payload; sub_websocket := sub_websocket sub |}.

Definition with_websocket (sub : submission) (ws : socket) : submission :=
  {| sub_endpoint := sub_endpoint sub; sub_fn_index := sub_fn_index sub;
     sub_event_data := sub_event_data sub; sub_blobs := sub_blobs sub;
     sub_payload := sub_payload sub; sub_websocket := ws |}.

(** What a callback of a submission does, in order. *)
Inductive action :=
| Fire (e : Event)
| Post (body : value)
| Reset (body : value)
| NewSocket
| Send (body : value)
| Close.

(** A status object with the members [status] and [queue] only. *)
Definition plain_status (status : string) (queue : bool) : Status :=
  {| st_status := VStr status; st_queue := VBool queue;
     st_message := VUndefined; st_size := VUndefined;
     st_position := VUndefined; st_eta := VUndefined;
     st_progress := VUndefined |}.

Definition with_message (st : Status) (message : value) : Status :=
  {| st_status := st_status st; st_queue := st_queue st;
     st_message := message; st_size := st_size st;
     st_position := st_position st; st_eta := st_eta st;
     st_progress := st_progress st |}.

Definition with_eta (st : Status) (eta : value) : Status :=
  {| st_status := st_status st; st_queue := st_queue st;
     st_message := st_message st; st_size := st_size st;
     st_position := st_position st; st_eta := eta;
     st_progress := st_progress st |}.

Definition with_queue (st : Status) (queue : value) : Status :=
  {| st_status := st_status st; st_queue := queue;
     st_message := st_message st; st_size := st_size st;
     st_position := st_position st; st_eta := st_eta st;
     st_progress := st_progress st |}.

(** [{ ...payload, session_hash }] *)
Definition with_session (payload : value) (session : string) : value :=
  match payload with
  | VObj props => VObj (props ++ [("session_hash", VStr session)])
  | _ => VObj [("session_hash", VStr session)]
  end.

(** An inherited member as a string, spelt as V8 spells it: the
    prototype object, the [Object] function that is its [constructor], and
    the other functions under their own names. *)
Definition builtin_text (f : builtin) : string :=
  match f with
  | BProto => "[object Object]"
  | BConstructor => "function Object() { [native code] }"
  | _ => "function " +:+ builtin_name f +:+ "() { [native code] }"
  end.

(** The key a function index is as a property name. *)
Definition property_key (v : value) : string :=
  match v with
  | VNum n => pretty n
  | VStr s => s
  | VNull => "null"
  | VBool true => "true"
  | VBool false => "false"
  | VBuiltin f => builtin_text f
  | _ => "undefined"
  end.

Section engine.
Variable pf : platform.

(** [submit] up to the call of [handle_blob]. *)
Definition submit (c : client) (endpoint : endpoint_ref) (data : value)
    (event_data : value) : submission :=
  {| sub_endpoint := resolve_endpoint endpoint;
     sub_fn_index := resolve_fn_index (api_map c) endpoint;
     sub_event_data := event_data;
     sub_blobs := handle_blob pf data (resolve_api_info (api c) endpoint);
     sub_payload := VUndefined;
     sub_websocket := NoSocket |}.

(** The callback run with the value [handle_blob] resolved with: the
    payload it assigns and what it does. *)
Definition submit_then (c : client) (sub : submission) (_payload : value)
    : value * list action :=
  let payload :=
    VObj [("data", _payload); ("event_data", sub_event_data sub);
          ("fn_index", sub_fn_index sub)] in
  if skip_queue (sub_fn_index sub) (config c) then
    (payload,
     [Fire (StatusEvent (sub_endpoint sub) (sub_fn_index sub)
              (plain_status "pending" false));
      Post (with_session payload (session_hash c))])
  else
    (payload,
     [Fire (StatusEvent (sub_endpoint sub) (sub_fn_index sub)
              (plain_status "pending" true));
      NewSocket]).

(** The callbacks on the promise of [post_data]. *)
Definition post_catch (sub : submission) (message : value) : list action :=
  [Fire (StatusEvent (sub_endpoint sub) (sub_fn_index sub)
           (with_message (plain_status "error" false) message))].

Definition post_then (c : client) (sub : submission) (output : value)
    (status_code : Z) : list action :=
  if Z.eqb status_code 200 then
    match member output "average_duration" with
    | Some eta =>
        [Fire (StatusEvent (sub_endpoint sub) (sub_fn_index sub)
                 (with_eta (plain_status "complete" false) eta));
         Fire (DataEvent (sub_endpoint sub) (sub_fn_index sub)
                 (field output "data"))]
    | None => post_catch sub (VStr (type_error_message c))
    end
  else
    match member output "error" with
    | Some message =>
        [Fire (StatusEvent (sub_endpoint sub) (sub_fn_index sub)
                 (with_message (plain_status "error" false) message))]
    | None => post_catch sub (VStr (type_error_message c))
    end.

Definition onclose (sub : submission) (wasClean : bool) : list action :=
  if negb wasClean then
    [Fire (StatusEvent (sub_endpoint sub) (sub_fn_index sub)
             (with_message (plain_status "error" true)
                (VStr BROKEN_CONNECTION_MSG)))]
  else [].

(** [websocket.onmessage] on a parsed frame; [None] when [handle_message]
    throws, which is before the handler has done anything. *)
Definition onmessage (c : client) (sub : submission) (frame : value)
    : option (list action) :=
  h ← handle_message frame
        (default VUndefined (last_status c !! property_key (sub_fn_index sub)));
  let data_event :=
    if truthy (h_data h) then
      [Fire (DataEvent (sub_endpoint sub) (sub_fn_index sub)
               (field (h_data h) "data"))]
    else [] in
  let overall :=
    StatusEvent (sub_endpoint sub) (sub_fn_index sub)
      (with_queue (default empty_status (h_status h)) (VBool true)) in
  Some
    match h_type h, h_status h with
    | TyUpdate, Some status =>
        Fire (StatusEvent (sub_endpoint sub) (sub_fn_index sub) status)
        :: (if is_str (st_status status) "error" then [Close] else [])
        ++ data_event
    | TyHash, _ =>
        [Send (VObj [("fn_index", sub_fn_index sub);
                     ("session_hash", VStr (session_hash c))])]
    | TyData, _ =>
        Send (with_session (sub_payload sub) (session_hash c)) :: data_event
    | TyComplete, _ => Fire overall :: Close :: data_event
    | TyGenerating, _ => Fire overall :: data_event
    | _, _ => data_event
    end.

(** [cancel] up to its [await], and its continuation once the reset
    request has settled.  [websocket.close()] on the unassigned variable
    throws inside the async function, which has no further effect. *)
Definition cancel (c : client) (sub : submission) : list action :=
  [Fire (StatusEvent (sub_endpoint sub) (sub_fn_index sub)
           (plain_status "complete" false));
   Reset (VStr (session_hash c))].

Definition cancel_resume (sub : submission) : list action :=
  match sub_websocket sub with
  | NoSocket => []
  | _ => [Close]
  end.

(** What leaves the client. *)
Inductive effect :=
| Deliver (l : listener) (e : Event)
| PostRun (s : nat) (body : value)
| PostReset (s : nat) (body : value)
| Connect (s : nat)
| SendFrame (s : nat) (body : value)
| CloseSocket (s : nat).

Definition perform1 (c : client) (s : nat) (a : action) : client * list effect :=
  match a with
  | Fire e => (c, (λ le, Deliver le.1 le.2) <$> fire_event (listener_map c) e)
  | Post body => (c, [PostRun s body])
  | Reset body => (c, [PostReset s body])
  | Send body => (c, [SendFrame s body])
  | NewSocket =>
      (with_submissions c
         (alter (λ sub, with_websocket sub SocketOpen) s (submissions c)),
       [Connect s])
  | Close =>
      (with_submissions c
         (alter (λ sub, with_websocket sub SocketClosed) s (submissions c)),
       [CloseSocket s])
  end.

Fixpoint perform (c : client) (s : nat) (acts : list action)
    : client * list effect :=
  match acts with
  | [] => (c, [])
  | a :: rest =>
      let '(c1, out1) := perform1 c s a in
      let '(c2, out2) := perform c1 s rest in
      (c2, out1 ++ out2)
  end.

(** What can happen to a client: calls of its interface, and the
    completions the platform reports to the callbacks of submission [s].
    The socket callbacks exist once the socket is assigned; whether the
    platform still reports frames after [close()] is the platform's, and a
    reported frame is handled all the same. *)
Inductive input :=
| CallSubmit (endpoint : endpoint_ref) (data event_data : value)
| CallOn (s : nat) (eventType : string) (l : listener)
| CallOff (s : nat) (eventType : string) (l : listener)
| CallCancel (s : nat)
| BlobsHandled (s : nat)
| PostReturned (s : nat) (output : value) (status_code : Z)
| PostRejected (s : nat) (message : value)
| FrameReceived (s : nat) (frame : value)
| SocketClosedBy (s : nat) (wasClean : bool)
| ResetSettled (s : nat).

Definition step (c : client) (i : input) : client * list effect :=
  match i with
  | CallSubmit endpoint data event_data =>
      (with_submissions c (submissions c ++ [submit c endpoint data event_data]),
       [])
  | CallOn s eventType l =>
      match submissions c !! s with
      | Some _ => (with_listener_map c (on (listener_map c) eventType l), [])
      | None => (c, [])
      end
  | CallOff s eventType l =>
      match submissions c !! s with
      | Some _ => (with_listener_map c (off (listener_map c) eventType l), [])
      | None => (c, [])
      end
  | CallCancel s =>
      match submissions c !! s with
      | Some sub => perform c s (cancel c sub)
      | None => (c, [])
      end
  | BlobsHandled s =>
      match submissions c !! s with
      | Some sub =>
          match sub_blobs sub with
          | Some _payload =>
              let '(payload, acts) := submit_then c sub _payload in
              perform
                (with_submissions c
                   (<[s := with_payload sub payload]> (submissions c)))
                s acts
          | None => (c, [])
          end
      | None => (c, [])
      end
  | PostReturned s output status_code =>
      match submissions c !! s with
      | Some sub => perform c s (post_then c sub output status_code)
      | None => (c, [])
      end
  | PostRejected s message =>
      match submissions c !! s with
      | Some sub => perform c s (post_catch sub message)
      | None => (c, [])
      end
  | FrameReceived s frame =>
      match submissions c !! s with
      | Some sub =>
          match sub_websocket sub with
          | NoSocket => (c, [])
          | _ => perform c s (default [] (onmessage c sub frame))
          end
      | None => (c, [])
      end
  | SocketClosedBy s wasClean =>
      match submissions c !! s with
      | Some sub =>
          match sub_websocket sub with
          | NoSocket => (c, [])
          | _ => perform c s (onclose sub wasClean)
          end
      | None => (c, [])
      end
  | ResetSettled s =>
      match submissions c !! s with
      | Some sub => perform c s (cancel_resume sub)
      | None => (c, [])
      end
  end.

(** A run: the client after the inputs, and everything that left it. *)
Fixpoint run (c : client) (inputs : list input) : client * list effect :=
  match inputs with
  | [] => (c, [])
  | i :: rest =>
      let '(c1, out1) := step c i in
      let '(c2, out2) := run c1 rest in
      (c2, out1 ++ out2)
  end.

(** The events delivered to listener [l], in order. *)
Definition received (l : listener) (out : list effect) : list Event :=
  omap (λ e, match e with
             | Deliver l' ev => if bool_decide (l' = l) then Some ev else None
             | _ => None
             end) out.
End engine.

(** ** Waking a sleeping space *)

Record SpaceStatus := {
  sp_status : string;
  sp_load_status : string;
  sp_message : string;
  sp_detail : string;
  sp_discussions_enabled : option bool;
}.

(** What one request to the space-status route comes back with: a failure
    (the request threw, or its HTTP status is not 200), an empty document,
    or a document with [runtime.stage] and [id]. *)
Inductive poll_result :=
| PollFailed
| PollEmpty
| PollStage (stage : string) (space_name : string).

Inductive poll_action :=
| Callback (status : SpaceStatus)
| SetTimeout (ms : Z).

Definition could_not_load : SpaceStatus :=
  {| sp_status := "error"; sp_message := "Could not load this space.";
     sp_load_status := "error"; sp_detail := "NOT_FOUND";
     sp_discussions_enabled := None |}.

Section wake.
(** Whether the caller of [client] gave a [status_callback]; the outcome
    of [resolve_config] followed by [view_api] when the space runs
    ([None] when [resolve_config] throws); the [discussions_enabled]
    helper of [utils.js]. *)
Variable has_status_callback : bool.
Variable resolved : option Config.
Variable discussions_enabled : string → bool.

(** One call of [check_space_status]: the calls of its [status_callback]
    argument and the timers it sets, each of which calls
    [check_space_status] again. *)
Definition check_space_status (response : poll_result) : list poll_action :=
  match response with
  | PollFailed =>
      [Callback {| sp_status := "error"; sp_load_status := "error";
                   sp_message := "Could not get space status";
                   sp_detail := "NOT_FOUND";
                   sp_discussions_enabled := None |}]
  | PollEmpty => []
  | PollStage stage space_name =>
      if String.eqb stage "STOPPED" || String.eqb stage "SLEEPING" then
        [Callback {| sp_status := "sleeping"; sp_load_status := "pending";
                     sp_message := "Space is asleep. Waking it up...";
                     sp_detail := stage; sp_discussions_enabled := None |};
         SetTimeout 1000]
      else if String.eqb stage "RUNNING" || String.eqb stage "RUNNING_BUILDING" then
        [Callback {| sp_status := "running"; sp_load_status := "complete";
                     sp_message := ""; sp_detail := stage;
                     sp_discussions_enabled := None |}]
      else if String.eqb stage "BUILDING" then
        [Callback {| sp_status := "building"; sp_load_status := "pending";
                     sp_message := "Space is building...";
                     sp_detail := stage; sp_discussions_enabled := None |};
         SetTimeout 1000]
      else
        [Callback {| sp_status := "space_error"; sp_load_status := "error";
                     sp_message := "This space is experiencing an issue.";
                     sp_detail := stage;
                     sp_discussions_enabled :=
                       Some (discussions_enabled space_name) |}]
  end.

(** What the caller of [client] sees. *)
Inductive load_event :=
| StatusCallback (status : SpaceStatus)
| Resolved (config : Config)
| Timer (ms : Z).

(** [handle_space_sucess], the callback [client] passes to
    [check_space_status]. *)
Definition handle_space_sucess (status : SpaceStatus) : list load_event :=
  (if has_status_callback then [StatusCallback status] else [])
  ++ (if String.eqb (sp_status status) "running" then
        match resolved with
        | Some config => [Resolved config]
        | None =>
            if has_status_callback then [StatusCallback could_not_load] else []
        end
      else []).

Definition observe (a : poll_action) : list load_event :=
  match a with
  | Callback status => handle_space_sucess status
  | SetTimeout ms => [Timer ms]
  end.

Definition timers (acts : list poll_action) : list Z :=
  omap (λ a, match a with SetTimeout ms => Some ms | _ => None end) acts.

(** The poll loop against the successive answers of the status route.
    [scheduled] counts the calls of [check_space_status] that are under
    way or set on a timer; the result is that count after the answers
    and what the caller saw. *)
Fixpoint wake_poll (scheduled : nat) (responses : list poll_result)
    : nat * list load_event :=
  match responses, scheduled with
  | response :: rest, S n =>
      let acts := check_space_status response in
      let '(n', seen) := wake_poll (n + length (timers acts)) rest in
      (n', (acts ≫= observe) ++ seen)
  | _, _ => (scheduled, [])
  end.

Definition load_statuses (seen : list load_event) : list string :=
  omap (λ e, match e with
             | StatusCallback status => Some (sp_load_status status)
             | _ => None
             end) seen.

Definition resolutions (seen : list load_event) : list Config :=
  omap (λ e, match e with Resolved config => Some config | _ => None end) seen.
End wake.

(** ** Concrete surroundings *)

(** A platform for running the definitions: the encoders return a tagged
    constant, a [window] exists and every upload returns one handle. *)
Definition sample_platform : platform :=
  {| to_base64 := λ _, "QUJD";
     image_to_data_uri := λ _, "data:image/png;base64,QUJD";
     in_browser := true;
     upload_files := λ _, Some ["/tmp/upload0"] |}.

(** A client right after [config_success]: no listener, no submission. *)
Definition fresh_client (cfg : Config) (schema : ApiInfo JsApiData)
    (names : gmap string Z) : client :=
  {| config := cfg; api := schema; api_map := names;
     session_hash := "k3x9"; last_status := ∅; listener_map := ∅;
     submissions := []; type_error_message := "TypeError" |}.

Definition no_schema : ApiInfo JsApiData :=
  {| named_endpoints := ∅; unnamed_endpoints := ∅ |}.

(** A server with the queue enabled and two endpoints whose dependency
    records leave the decision to [enable_queue]. *)
Definition queued_config : Config :=
  {| enable_queue := true;
     dependencies := [VObj [("queue", VNull)]; VObj [("queue", VNull)]];
     path := "" |}.

(** A server without queue, same endpoints. *)
Definition direct_config : Config :=
  {| enable_queue := false;
     dependencies := [VObj [("queue", VNull)]; VObj [("queue", VNull)]];
     path := "" |}.

(** A server whose only dependency record has no [queue] member. *)
Definition bare_config : Config :=
  {| enable_queue := true; dependencies := [VObj []]; path := "" |}.

Definition two_names : gmap string Z := {[ "a" := 0%Z; "b" := 1%Z ]}.

(** A queued submission to endpoint 0 with one status listener (7) and one
    data listener (8), once its socket is open. *)
Definition queued_session : client :=
  (run sample_platform (fresh_client queued_config no_schema two_names)
     [CallSubmit (EIndex 0) (VArr [VStr "hi"]) VNull;
      CallOn 0 "status" 7%nat;
      CallOn 0 "data" 8%nat;
      BlobsHandled 0]).1.

Definition generating_frame : value :=
  VObj [("msg", VStr "process_generating"); ("success", VBool true);
        ("output", VObj [("data", VArr [VStr "he"])])].

Definition estimation_frame : value :=
  VObj [("msg", VStr "estimation"); ("rank", VNum 0); ("queue_size", VNum 1);
        ("rank_eta", VNum 5)].

Definition failed_frame : value :=
  VObj [("msg", VStr "process_completed"); ("success", VBool false);
        ("output", VObj [("error", VStr "out of memory")])].

Definition heartbeat_frame : value := VObj [("msg", VStr "heartbeat")].

(** [event.status] of a status event. *)
Definition st_status_of (e : Event) : option value :=
  match e with
  | StatusEvent _ _ status => Some (st_status status)
  | DataEvent _ _ _ => None
  end.


(** A submission to endpoint 0 of a server without queue, with one status
    listener (7) and one data listener (8), once its request is posted. *)
Definition direct_session : client :=
  (run sample_platform (fresh_client direct_config no_schema two_names)
     [CallSubmit (EIndex 0) (VArr [VStr "hi"]) VNull;
      CallOn 0 "status" 7%nat;
      CallOn 0 "data" 8%nat;
      BlobsHandled 0]).1.

Definition late_response : value :=
  VObj [("data", VArr [VStr "done"]); ("average_duration", VNum 3)].

(** Two submissions A (to "/a") and B (to "/b") on one client of a server
    without queue, both posted; listener 5 was registered through the
    handle of A only, for data events. *)
Definition two_submissions : client :=
  (run sample_platform (fresh_client direct_config no_schema two_names)
     [CallSubmit (EName "/a") (VArr []) VNull;
      CallSubmit (EName "/b") (VArr []) VNull;
      CallOn 0 "data" 5%nat;
      BlobsHandled 0;
      BlobsHandled 1]).1.

Definition response_for_b : value :=
  VObj [("data", VArr [VStr "for b"]); ("average_duration", VNum 2)].


(** The same queued submission before [handle_blob] has resolved. *)
Definition queued_submitted : client :=
  (run sample_platform (fresh_client queued_config no_schema two_names)
     [CallSubmit (EIndex 0) (VArr [VStr "hi"]) VNull]).1.


(** A raw schema document with one named endpoint ["/predict"] and no
    unnamed endpoint. *)
Definition text_parameter : ApiData :=
  {| api_label := "prompt";
     api_type := [("type", VStr "string"); ("description", VStr "the prompt")];
     api_component := "Textbox";
     api_example_input := VStr "hello" |}.

Definition predict_only : ApiInfo ApiData :=
  {| named_endpoints :=
       {[ "/predict" := {| parameters := [text_parameter]; returns := [] |} ]};
     unnamed_endpoints := ∅ |}.

(** The stages at which [check_space_status] sets a timer. *)
Definition waiting_stages : list string := ["STOPPED"; "SLEEPING"; "BUILDING"].

(** The references of a walk in which no call throws and every call of
    [hasOwnProperty] answers [true].  It serves the proofs; what it has to
    do with [walk_and_store_blobs] is the lemmas [walk_returns] and
    [walk_sublist]. *)
Fixpoint walk_refs (pf : platform) (param : value) (type : value)
    (path : list key) (root : bool) (api_info : api_entry) {struct param}
    : list blob_ref :=
  match param with
  | VArr elems =>
      (fix each (l : list value) (i : nat) {struct l} : list blob_ref :=
         match l with
         | [] => []
         | v :: l' =>
             walk_refs pf v
               (if root then default VUndefined (declared_component api_info i)
                else type)
               (path ++ [KIdx i]) false api_info
             ++ each l' (S i)
         end) elems 0%nat
  | VBuffer bytes =>
      let is_image := is_str type "Image" in
      [ {| ref_path := path;
           ref_blob := if is_image then VBool false else VBlob bytes;
           ref_data := if is_image then VStr (to_base64 pf bytes) else VBool false;
           ref_type := type |} ]
  | VBlob bytes =>
      if is_str type "Image" then
        [ {| ref_path := path;
             ref_blob := VUndefined;
             ref_data := VStr (if in_browser pf then image_to_data_uri pf bytes
                               else to_base64 pf bytes);
             ref_type := type |} ]
      else
        [ {| ref_path := path;
             ref_blob := param;
             ref_data := VUndefined;
             ref_type := type |} ]
  | VObj props =>
      (fix each (l : list (string * value)) {struct l} : list blob_ref :=
         match l with
         | [] => []
         | (k, v) :: l' =>
             walk_refs pf v VUndefined (path ++ [KKey k]) false api_info
             ++ each l'
         end) props
  | _ => []
  end.

(** No object of the tree has a property of its own named
    [hasOwnProperty]. *)
Fixpoint own_method_free (v : value) : bool :=
  match v with
  | VArr elems =>
      (fix all (l : list value) : bool :=
         match l with
         | [] => true
         | x :: l' => own_method_free x && all l'
         end) elems
  | VObj props =>
      match assoc "hasOwnProperty" props with
      | Some _ => false
      | None =>
          (fix all (l : list (string * value)) : bool :=
             match l with
             | [] => true
             | (_, x) :: l' => own_method_free x && all l'
             end) props
      end
  | _ => true
  end.

(** The walk reads no component from an inherited member: it reads the
    components of the elements of an array of arguments that is not
    empty. *)
Definition schema_readable (api_info : api_entry) (root : bool) (param : value)
    : bool :=
  match api_info, root, param with
  | InheritedEntry _, true, VArr (_ :: _) => false
  | _, _, _ => true
  end.

(** The two loops of [walk_refs] on their own: over the elements of an
    array from index [i] on, and over the properties of an object. *)
Section loops.
Variable pf : platform.
Variable api_info : api_entry.

Fixpoint walk_elems (root : bool) (type : value) (path : list key)
    (l : list value) (i : nat) : list blob_ref :=
  match l with
  | [] => []
  | v :: l' =>
      walk_refs pf v
        (if root then default VUndefined (declared_component api_info i)
         else type)
        (path ++ [KIdx i]) false api_info
      ++ walk_elems root type path l' (S i)
  end.

Fixpoint walk_props (path : list key) (l : list (string * value))
    : list blob_ref :=
  match l with
  | [] => []
  | (k, v) :: l' =>
      walk_refs pf v VUndefined (path ++ [KKey k]) false api_info
      ++ walk_props path l'
  end.

(** The same for the two loops of [walk_and_store_blobs]; [props] are the
    properties of the object whose remaining ones are [l]. *)
Fixpoint store_elems (root : bool) (type : value) (path : list key)
    (l : list value) (i : nat) : option (list blob_ref) :=
  match l with
  | [] => Some []
  | v :: l' =>
      component ← (if root then declared_component api_info i else Some type);
      array_refs ← walk_and_store_blobs pf v component (path ++ [KIdx i])
                     false api_info;
      rest ← store_elems root type path l' (S i);
      Some (array_refs ++ rest)
  end.

Fixpoint store_props (props : list (string * value)) (path : list key)
    (l : list (string * value)) : option (list blob_ref) :=
  match l with
  | [] => Some []
  | (k, v) :: l' =>
      own ← has_own_property props k;
      if own : bool then
        refs ← walk_and_store_blobs pf v VUndefined (path ++ [KKey k])
                 false api_info;
        rest ← store_props props path l';
        Some (refs ++ rest)
      else store_props props path l'
  end.
End loops.

(** A payload with a [Blob] below an object below the argument list, and a
    [Buffer] declared as an image. *)
Definition image_endpoint : EndpointInfo JsApiData :=
  {| parameters :=
       [ {| js_label := "picture"; js_component := "Image";
            js_type := VStr "string"; js_description := VUndefined |} ];
     returns := [] |}.

Definition mixed_payload : value :=
  VArr [VBuffer [137; 80]%Z;
        VObj [("caption", VStr "a cat"); ("file", VBlob [1; 2; 3]%Z)];
        VNum 4].




(** The two references of [mixed_payload] under [image_endpoint]. *)
Definition picture_ref : blob_ref :=
  {| ref_path := [KIdx 0]; ref_blob := VBool false;
     ref_data := VStr "QUJD"; ref_type := VStr "Image" |}.

Definition file_ref : blob_ref :=
  {| ref_path := [KIdx 1; KKey "file"]; ref_blob := VBlob [1; 2; 3]%Z;
     ref_data := VUndefined; ref_type := VUndefined |}.


(** ** Further parts of the client *)

Definition is_data_action (a : action) : bool :=
  match a with
  | Fire (DataEvent _ _ _) => true
  | _ => false
  end.

(** What [fetch] comes back with in [post_data]: it threw, or it answered
    with a status and a body that [response.json()] parses ([None] when it
    does not). *)
Inductive fetch_result :=
| FetchThrew
| FetchAnswered (json : option value) (status : Z).

(** [post_data]: the pair its promise resolves with, [None] when it
    rejects. *)
Definition post_data (r : fetch_result) : option (value * Z) :=
  match r with
  | FetchThrew => Some (VObj [("error", VStr BROKEN_CONNECTION_MSG)], 500%Z)
  | FetchAnswered (Some output) status => Some (output, status)
  | FetchAnswered None _ => None
  end.


(** The body of the [Promise] of [client] from the first [resolve_config]
    on: [initial] is its outcome together with [view_api] ([None] when it
    throws), [space_id] the space identifier [process_endpoint] found, if
    any, and [responses] the successive answers of the status route.  The
    result is as for [wake_poll]. *)
Definition client_load (has_status_callback : bool) (initial : option Config)
    (resolved : option Config) (discussions_enabled : string → bool)
    (space_id : option string) (responses : list poll_result)
    : nat * list load_event :=
  match initial with
  | Some config => (0%nat, [Resolved config])
  | None =>
      match space_id with
      | Some id =>
          if negb (String.eqb id "") then
            wake_poll has_status_callback resolved discussions_enabled 1 responses
          else
            (0%nat, if has_status_callback then [StatusCallback could_not_load]
                    else [])
      | None =>
          (0%nat, if has_status_callback then [StatusCallback could_not_load]
                  else [])
      end
  end.

Definition is_status_callback (e : load_event) : bool :=
  match e with
  | StatusCallback _ => true
  | _ => false
  end.

(** A configuration document as [resolve_config] handles it: its [root],
    its [path] when it has one, and its other members. *)
Record config_document := {
  cd_root : string;
  cd_path : option string;
  cd_members : list (string * value);
}.

(** The page the client runs in: [window.gradio_config] when the page
    carries one, and [location.origin]. *)
Record page := {
  gradio_config : option config_document;
  location_origin : string;
}.

(** What [fetch] of the config route comes back with: it threw, or it
    answered with a status and a body ([None] when [response.json()]
    throws). *)
Inductive config_fetch :=
| ConfigFetchThrew
| ConfigAnswered (status : Z) (body : option config_document).

Inductive config_outcome :=
| ConfigOk (config : config_document)
| ConfigError (message : string)
| ConfigRejected.

(** The branch of [resolve_config] that asks the server. *)
Definition fetch_config (endpoint : option string) (r : config_fetch)
    : config_outcome :=
  match endpoint with
  | Some e =>
      if negb (String.eqb e "") then
        match r with
        | ConfigFetchThrew => ConfigRejected
        | ConfigAnswered status body =>
            if Z.eqb status 200 then
              match body with
              | Some config =>
                  ConfigOk {| cd_root := e;
                              cd_path := Some (default "" (cd_path config));
                              cd_members := cd_members config |}
              | None => ConfigRejected
              end
            else ConfigError "Could not get config."
        end
      else ConfigError "No config or app endpoint found"
  | None => ConfigError "No config or app endpoint found"
  end.

(** [resolve_config]: the page afterwards ([None] where there is no
    [window]) and the outcome.  The page branch assigns to the [root] of the
    page's own object and returns a copy with [path] set. *)
Definition resolve_config (window : option page) (endpoint : option string)
    (r : config_fetch) : option page * config_outcome :=
  match window with
  | Some w =>
      match gradio_config w with
      | Some config =>
          if negb (String.eqb (location_origin w) "http://localhost:9876") then
            let path := cd_root config in
            let root := default "undefined" endpoint +:+ cd_root config in
            (Some {| gradio_config :=
                       Some {| cd_root := root; cd_path := cd_path config;
                               cd_members := cd_members config |};
                     location_origin := location_origin w |},
             ConfigOk {| cd_root := root; cd_path := Some path;
                         cd_members := cd_members config |})
          else (window, fetch_config endpoint r)
      | None => (window, fetch_config endpoint r)
      end
  | None => (window, fetch_config endpoint r)
  end.

(** The values [get_type] returns. *)
Definition js_types : list value :=
  [VStr "string"; VStr "boolean"; VStr "number"; VStr "any"; VStr "string[]";
   VStr file_type; VStr ""; VUndefined].

Definition gallery_parameter : ApiData :=
  {| api_label := "pictures";
     api_type := [("type", VStr "array"); ("description", VStr "list of files")];
     api_component := "Gallery";
     api_example_input := VNull |}.

(** A raw schema document with an unnamed endpoint 0 of its own next to
    ["/predict"]. *)
Definition both_endpoints : ApiInfo ApiData :=
  {| named_endpoints :=
       {[ "/predict" := {| parameters := [text_parameter]; returns := [] |} ]};
     unnamed_endpoints :=
       {[ "0" := {| parameters := [gallery_parameter]; returns := [] |} ]} |}.

Definition injected_page : page :=
  {| gradio_config :=
       Some {| cd_root := "/app"; cd_path := None;
               cd_members := [("enable_queue", VBool true)] |};
     location_origin := "https://example.org" |}.

(** The promise of [predict]: [res] and [rej] settle it once. *)
Inductive promise :=
| Pending
| Fulfilled (e : Event)
| Rejected (e : Event).

(** The two listeners [predict] registers, [res] for data events and the
    one that calls [rej] on a status [error], as they act on the promise
    when the client calls them. *)
Definition settle (l_data l_status : listener) (p : promise) (x : effect)
    : promise :=
  match p, x with
  | Pending, Deliver l e =>
      if bool_decide (l = l_data) then Fulfilled e
      else if bool_decide (l = l_status) then
        match e with
        | StatusEvent _ _ status =>
            if is_str (st_status status) "error" then Rejected e else Pending
        | DataEvent _ _ _ => Pending
        end
      else Pending
  | _, _ => p
  end.

(** [predict] up to the return of its promise: the submission and the two
    registrations. *)
Definition predict (pf : platform) (c : client) (endpoint : endpoint_ref)
    (data event_data : value) (l_data l_status : listener) : client :=
  (run pf c
     [CallSubmit endpoint data event_data;
      CallOn (length (submissions c)) "data" l_data;
      CallOn (length (submissions c)) "status" l_status]).1.

(** The component a reference gets from its path: the declared component
    of the argument when the path runs through arrays only, none as soon as
    it runs through an object. *)
Definition is_index (k : key) : bool :=
  match k with
  | KIdx _ => true
  | KKey _ => false
  end.

Definition inherited_type (type : value) (suffix : list key) : value :=
  if forallb is_index suffix then type else VUndefined.

Definition expected_type (api_info : api_entry) (path : list key) : value :=
  match path with
  | KIdx i :: rest =>
      inherited_type (default VUndefined (declared_component api_info i)) rest
  | _ => VUndefined
  end.

(** A platform whose upload route is down. *)
Definition offline_platform : platform :=
  {| to_base64 := to_base64 sample_platform;
     image_to_data_uri := image_to_data_uri sample_platform;
     in_browser := true;
     upload_files := λ _, None |}.

(** Keys are compared as the walk records them. *)
Global Instance key_eq_dec : EqDecision key.
Proof. solve_decision. Defined.

(** [entry object k x]: the array [object] has the element [x] under the
    index [k], or the object [object] has the value [x] under the key
    [k]. *)
Definition entry (object : value) (k : key) (x : value) : Prop :=
  match object, k with
  | VArr l, KIdx i => l !! i = Some x
  | VObj kvs, KKey s => assoc s kvs = Some x
  | _, _ => False
  end.

(** [leads_to object path leaf]: [path] runs from [object] to [leaf]
    through elements of arrays and values of objects that are there. *)
Fixpoint leads_to (object : value) (path : list key) (leaf : value) : Prop :=
  match path with
  | [] => object = leaf
  | k :: rest => ∃ x, entry object k x ∧ leads_to x rest leaf
  end.

(** Two paths part ways: at some position they have different
    components, before either of them ends. *)
Fixpoint diverge (p q : list key) : Prop :=
  match p, q with
  | k :: p', k' :: q' => k ≠ k' ∨ diverge p' q'
  | _, _ => False
  end.

Definition failed_generating_frame : value :=
  VObj [("msg", VStr "process_generating"); ("success", VBool false);
        ("output", VObj [("error", VStr "boom")])].

Definition queue_full_frame : value := VObj [("msg", VStr "queue_full")].

Definition completed_frame : value :=
  VObj [("msg", VStr "process_completed"); ("success", VBool true);
        ("output", VObj [("data", VArr [VStr "ok"]);
                         ("average_duration", VNum 2)])].

(** The submission of [queued_session]. *)
Definition queued_submission : submission :=
  {| sub_endpoint := "/predict"; sub_fn_index := VNum 0;
     sub_event_data := VNull; sub_blobs := Some (VArr [VStr "hi"]);
     sub_payload :=
       VObj [("data", VArr [VStr "hi"]); ("event_data", VNull);
             ("fn_index", VNum 0)];
     sub_websocket := SocketOpen |}.

(** * Properties *)

(** ** The transport decision *)

Lemma skip_queue_cases (id : value) (config : Config) :
  skip_queue id config =
    match dependency_queue id config with
    | VNull => negb (enable_queue config)
    | q => negb (truthy q)
    end.
Proof.
  unfold skip_queue. rewrite orb_false_r.
  by destruct (dependency_queue id config).
Qed.

Lemma fire_delivers_only (lm : gmap string (list listener)) (e : Event)
    (x : effect) :
  x ∈ ((λ le : listener * Event, Deliver le.1 le.2) <$> fire_event lm e) →
  ∃ l ev, x = Deliver l ev.
Proof.
  intros Hx. apply list_elem_of_fmap in Hx as ([l ev] & -> & _). eauto.
Qed.

Lemma deliveries_of_fire_event (lm : gmap string (list listener)) (e : Event) :
  (λ le : listener * Event, Deliver le.1 le.2) <$> fire_event lm e
  = (λ l, Deliver l e) <$> default [] (lm !! event_type e).
Proof. unfold fire_event. by rewrite <- list_fmap_compose. Qed.

Section transport.
Variable pf : platform.

Lemma blobs_handled_effects (c : client) (s : nat) (sub : submission)
    (_payload : value) :
  submissions c !! s = Some sub →
  sub_blobs sub = Some _payload →
  ∃ deliveries,
    (∀ x, x ∈ deliveries → ∃ l ev, x = Deliver l ev) ∧
    (step pf c (BlobsHandled s)).2 =
      deliveries ++
      [if skip_queue (sub_fn_index sub) (config c)
       then PostRun s
              (with_session
                 (VObj [("data", _payload); ("event_data", sub_event_data sub);
                        ("fn_index", sub_fn_index sub)])
                 (session_hash c))
       else Connect s].
Proof.
  intros Hs Hb. unfold step. rewrite Hs, Hb. unfold submit_then.
  destruct (skip_queue _ _); simpl;
    (eexists; split; [ intros x; apply fire_delivers_only | reflexivity ]).
Qed.

(** C1 (as amended).  When the value [handle_blob] resolved with reaches a
    submission, the run route is posted to and no socket is opened if the
    [queue] member of the endpoint's dependency record is [false], is
    absent ([undefined]: the record has no such member, or there is no
    record for the function index), or is [null] while [enable_queue] is
    false.  A socket is opened and nothing is posted if the member is
    [true], or is [null] while [enable_queue] is true. *)
Theorem transport_decision (c : client) (s : nat) (sub : submission)
    (_payload : value) :
  submissions c !! s = Some sub →
  sub_blobs sub = Some _payload →
  let q := dependency_queue (sub_fn_index sub) (config c) in
  let out := (step pf c (BlobsHandled s)).2 in
  (q = VBool false ∨ q = VUndefined
     ∨ (q = VNull ∧ enable_queue (config c) = false) →
   skip_queue (sub_fn_index sub) (config c) = true
   ∧ (Connect s ∉ out) ∧ (∃ body, PostRun s body ∈ out))
  ∧ (q = VBool true ∨ (q = VNull ∧ enable_queue (config c) = true) →
     skip_queue (sub_fn_index sub) (config c) = false
     ∧ Connect s ∈ out ∧ (∀ body, PostRun s body ∉ out)).
Proof.
  intros Hs Hb q out.
  destruct (blobs_handled_effects c s sub _payload Hs Hb) as (ds & Hds & Hout).
  fold out in Hout.
  assert (Hno : ∀ x, (∀ l ev, x ≠ Deliver l ev) → x ∉ ds).
  { intros x Hx Hin. destruct (Hds x Hin) as (l & ev & ->). by eapply Hx. }
  split; intros Hq.
  - assert (Hskip : skip_queue (sub_fn_index sub) (config c) = true).
    { rewrite skip_queue_cases. fold q.
      destruct Hq as [-> | [-> | [-> ->]]]; reflexivity. }
    rewrite Hskip in Hout. split; [done |]. rewrite Hout. split.
    + rewrite elem_of_app, list_elem_of_singleton.
      intros [Hin | Heq]; [ | discriminate ].
      by eapply Hno in Hin.
    + eexists. rewrite elem_of_app, list_elem_of_singleton. by right.
  - assert (Hskip : skip_queue (sub_fn_index sub) (config c) = false).
    { rewrite skip_queue_cases. fold q.
      destruct Hq as [-> | [-> ->]]; reflexivity. }
    rewrite Hskip in Hout. split; [done |]. rewrite Hout. split.
    + rewrite elem_of_app, list_elem_of_singleton. by right.
    + intros body. rewrite elem_of_app, list_elem_of_singleton.
      intros [Hin | Heq]; [ | discriminate ].
      by eapply Hno in Hin.
Qed.
End transport.

(** ** Frames *)

Lemma member_of_field (o : value) (k : string) (v : value) :
  field o k = v → v ≠ VUndefined → member o k = Some v.
Proof.
  intros <- Hv. unfold member. by destruct o.
Qed.

Lemma member_not_nullish (o : value) (k : string) :
  nullish o = false → member o k = Some (field o k).
Proof. unfold member. by intros ->. Qed.

Section frames.
Variable pf : platform.

(** C3.  A [process_completed] frame with [success: false] and an
    [output] makes the socket handler fire one status event, with status
    [error] and the frame's [output.error] as message, then close the
    socket, and fire no data event: every status listener is called once
    with that event, nothing else leaves the client but the close, and
    the socket of the submission is closed afterwards. *)
Theorem process_completed_failure (c : client) (s : nat) (sub : submission)
    (frame : value) :
  submissions c !! s = Some sub →
  sub_websocket sub ≠ NoSocket →
  field frame "msg" = VStr "process_completed" →
  field frame "success" = VBool false →
  nullish (field frame "output") = false →
  let failure :=
    StatusEvent (sub_endpoint sub) (sub_fn_index sub)
      {| st_status := VStr "error";
         st_queue := VBool true;
         st_message := field (field frame "output") "error";
         st_size := VUndefined;
         st_position := VUndefined;
         st_eta := field (field frame "output") "average_duration";
         st_progress := field frame "progress_data" |} in
  onmessage c sub frame = Some [Fire failure; Close]
  ∧ (step pf c (FrameReceived s frame)).2 =
      ((λ l, Deliver l failure) <$> default [] (listener_map c !! "status"))
      ++ [CloseSocket s]
  ∧ sub_websocket <$> submissions (step pf c (FrameReceived s frame)).1 !! s
    = Some SocketClosed.
Proof.
  intros Hs Hws Hmsg Hsuccess Houtput failure.
  assert (Hon : onmessage c sub frame = Some [Fire failure; Close]).
  { unfold onmessage, handle_message.
    rewrite (member_of_field _ _ _ Hmsg) by done. cbn.
    rewrite Hsuccess. cbn.
    rewrite !(member_not_nullish _ _ Houtput). reflexivity. }
  split; [exact Hon |].
  unfold step. rewrite Hs.
  destruct (sub_websocket sub) eqn:Hsock; [done | |];
    rewrite Hon; cbn.
  all: split;
    [ by rewrite deliveries_of_fire_event
    | rewrite list_lookup_alter_eq, Hs; reflexivity ].
Qed.

(** C10.  A frame whose [msg] is none of the tags [handle_message] has a
    case for makes the socket handler do nothing: no event is fired,
    nothing is sent and the socket is not closed, and the client is as it
    was. *)
Theorem unrecognized_frame_ignored (c : client) (s : nat) (sub : submission)
    (frame : value) :
  (∀ tag, tag ∈ protocol_tags → field frame "msg" ≠ VStr tag) →
  default [] (onmessage c sub frame) = []
  ∧ step pf c (FrameReceived s frame) = (c, []).
Proof.
  intros Htags.
  assert (Hno : ∀ tag, tag ∈ protocol_tags → is_str (field frame "msg") tag = false).
  { intros tag Hin. specialize (Htags tag Hin).
    unfold is_str. destruct (field frame "msg"); try done.
    apply String.eqb_neq. congruence. }
  assert (Hon : default [] (onmessage c sub frame) = []).
  { unfold onmessage, handle_message, member.
    destruct (nullish frame); [done |]. cbn.
    rewrite !Hno by (unfold protocol_tags; set_solver). reflexivity. }
  split; [exact Hon |].
  unfold step. destruct (submissions c !! s) as [sub' |] eqn:Hs; [| done].
  destruct (sub_websocket sub'); [done | |].
  all: assert (Hon' : default [] (onmessage c sub' frame) = []);
    [ unfold onmessage, handle_message, member;
      destruct (nullish frame); [done |]; cbn;
      rewrite !Hno by (unfold protocol_tags; set_solver); reflexivity
    | by rewrite Hon' ].
Qed.
End frames.


(** ** The last-status record *)

Section last_status.
Variable pf : platform.

Lemma perform_last_status (c : client) (s : nat) (acts : list action) :
  last_status (perform c s acts).1 = last_status c.
Proof.
  revert c. induction acts as [| a acts IH]; intros c; [done |].
  cbn [perform].
  destruct (perform1 c s a) as [c1 out1] eqn:H1.
  destruct (perform c1 s acts) as [c2 out2] eqn:H2.
  cbn. specialize (IH c1). rewrite H2 in IH. cbn in IH. rewrite IH.
  by destruct a; inversion H1.
Qed.

(** No input changes [last_status]: the client has no assignment to it. *)
Lemma step_last_status (c : client) (i : input) :
  last_status (step pf c i).1 = last_status c.
Proof.
  destruct i; cbn [step]; try done;
    repeat (case_match; try done);
    try (rewrite perform_last_status; done).
Qed.

Lemma run_last_status (c : client) (inputs : list input) :
  last_status (run pf c inputs).1 = last_status c.
Proof.
  revert c. induction inputs as [| i inputs IH]; intros c; [done |].
  cbn [run].
  destruct (step pf c i) as [c1 out1] eqn:H1.
  destruct (run pf c1 inputs) as [c2 out2] eqn:H2.
  cbn. specialize (IH c1). rewrite H2 in IH. cbn in IH. rewrite IH.
  pose proof (step_last_status c i) as Hs. by rewrite H1 in Hs.
Qed.

(** Given [generating] as the last status, [handle_message] keeps it in
    the update it builds for an [estimation] frame. *)
Lemma handle_message_estimation (frame last : value) :
  field frame "msg" = VStr "estimation" →
  h_status <$> handle_message frame last =
    Some (Some {| st_queue := VBool true;
                  st_status := js_or last (VStr "pending");
                  st_size := field frame "queue_size";
                  st_position := field frame "rank";
                  st_eta := field frame "rank_eta";
                  st_message := VUndefined;
                  st_progress := VUndefined |}).
Proof.
  intros Hmsg. unfold handle_message.
  by rewrite (member_of_field _ _ _ Hmsg).
Qed.

(** The socket handler never has a last status to give: in every client
    reached from one whose [last_status] is empty, an [estimation] frame
    fires a status event with status [pending]. *)
Lemma estimation_fires_pending (c : client) (inputs : list input)
    (sub : submission) (frame : value) :
  last_status c = ∅ →
  field frame "msg" = VStr "estimation" →
  onmessage (run pf c inputs).1 sub frame =
    Some [Fire (StatusEvent (sub_endpoint sub) (sub_fn_index sub)
                  {| st_queue := VBool true;
                     st_status := VStr "pending";
                     st_size := field frame "queue_size";
                     st_position := field frame "rank";
                     st_eta := field frame "rank_eta";
                     st_message := VUndefined;
                     st_progress := VUndefined |})].
Proof.
  intros Hempty Hmsg. unfold onmessage.
  rewrite run_last_status, Hempty, lookup_empty. cbn [default].
  unfold handle_message. by rewrite (member_of_field _ _ _ Hmsg).
Qed.
End last_status.

(** C2.  On a queued submission, a [process_generating] frame followed by
    an [estimation] frame: the status listener receives [generating] for
    the first and [pending] for the second.  The last known status was
    [generating]; it is not kept, because nothing records it. *)
Theorem estimation_after_generating :
  st_status_of <$>
    received 7 (run sample_platform queued_session
                  [FrameReceived 0 generating_frame;
                   FrameReceived 0 estimation_frame]).2
  = [Some (VStr "generating"); Some (VStr "pending")].
Proof. vm_compute. reflexivity. Qed.


(** ** Listeners and cancellation *)

Section registry.
Variable pf : platform.

(** Registration does not depend on the submission whose handle is
    used: the listener map belongs to the client. *)
Lemma on_any_handle (c : client) (s s' : nat) (eventType : string)
    (l : listener) :
  is_Some (submissions c !! s) →
  is_Some (submissions c !! s') →
  step pf c (CallOn s eventType l) = step pf c (CallOn s' eventType l).
Proof. intros [sub Hs] [sub' Hs']. cbn. by rewrite Hs, Hs'. Qed.

(** An event fired by any submission reaches every listener registered
    for its type, through whichever handle. *)
Lemma fire_reaches_all (c : client) (s : nat) (e : Event) (l : listener) :
  l ∈ default [] (listener_map c !! event_type e) →
  Deliver l e ∈ (perform c s [Fire e]).2.
Proof.
  intros Hl. cbn. rewrite app_nil_r, deliveries_of_fire_event.
  apply list_elem_of_fmap. eauto.
Qed.

(** C4 (as amended).  [cancel] calls every status listener once with a
    status event [complete] with [queue] false and posts the reset
    request; it changes nothing in the client, so no listener is removed
    and whatever arrives later is handled as before.  Once the reset
    request has settled, the socket, if one was assigned, is closed, and
    the listeners stay as they were. *)
Theorem cancel_effects (c : client) (s : nat) (sub : submission) :
  submissions c !! s = Some sub →
  step pf c (CallCancel s) =
    (c,
     ((λ l, Deliver l (StatusEvent (sub_endpoint sub) (sub_fn_index sub)
                         (plain_status "complete" false)))
        <$> default [] (listener_map c !! "status"))
     ++ [PostReset s (VStr (session_hash c))])
  ∧ (sub_websocket sub ≠ NoSocket →
     (step pf c (ResetSettled s)).2 = [CloseSocket s]
     ∧ sub_websocket <$> submissions (step pf c (ResetSettled s)).1 !! s
       = Some SocketClosed
     ∧ listener_map (step pf c (ResetSettled s)).1 = listener_map c).
Proof.
  intros Hs. split.
  - unfold step. rewrite Hs. cbn.
    by rewrite deliveries_of_fire_event.
  - intros Hws. unfold step. rewrite Hs. unfold cancel_resume.
    destruct (sub_websocket sub); [done | |]; cbn;
      by rewrite list_lookup_alter_eq, Hs.
Qed.
End registry.

(** C7.  Two submissions A and B on one client; listener 5 was registered
    through the handle of A.  The response to B's request delivers B's data
    event to listener 5. *)
Theorem listener_of_a_receives_b :
  received 5
    (step sample_platform two_submissions (PostReturned 1 response_for_b 200)).2
  = [DataEvent "/b" (VNum 1) (VArr [VStr "for b"])].
Proof. vm_compute. reflexivity. Qed.


(** ** The properties at concrete clients *)

(** A dependency record without a [queue] member, [enable_queue] true: the
    submission posts to the run route and opens no socket. *)
Lemma transport_without_queue_member :
  enable_queue bare_config = true
  ∧ dependencies bare_config !! 0%nat = Some (VObj [])
  ∧ skip_queue (VNum 0) bare_config = true
  ∧ (run sample_platform (fresh_client bare_config no_schema ∅)
       [CallSubmit (EIndex 0) (VArr []) VUndefined; BlobsHandled 0]).2
    = [PostRun 0
         (VObj [("data", VArr []); ("event_data", VUndefined);
                ("fn_index", VNum 0); ("session_hash", VStr "k3x9")])].
Proof. repeat split; vm_compute; reflexivity. Qed.

Lemma transport_decision_witness :
  dependency_queue (VNum 0) queued_config = VNull
  ∧ enable_queue queued_config = true
  ∧ Connect 0 ∈ (step sample_platform queued_submitted (BlobsHandled 0)).2.
Proof.
  split; [reflexivity |]. split; [reflexivity |].
  refine (proj1 (proj2 (proj2
            (transport_decision sample_platform queued_submitted 0 _ _
               eq_refl eq_refl) _))).
  right. split; reflexivity.
Defined.

Lemma process_completed_failure_witness :
  (step sample_platform queued_session (FrameReceived 0 failed_frame)).2
  = [Deliver 7
       (StatusEvent "/predict" (VNum 0)
          {| st_status := VStr "error"; st_queue := VBool true;
             st_message := VStr "out of memory"; st_size := VUndefined;
             st_position := VUndefined; st_eta := VUndefined;
             st_progress := VUndefined |});
     CloseSocket 0].
Proof.
  refine (proj1 (proj2
            (process_completed_failure sample_platform queued_session 0 _
               failed_frame eq_refl _ eq_refl eq_refl eq_refl))).
  discriminate.
Defined.

Lemma unrecognized_frame_ignored_witness :
  step sample_platform queued_session (FrameReceived 0 heartbeat_frame)
  = (queued_session, []).
Proof.
  refine (proj2 (unrecognized_frame_ignored sample_platform queued_session 0
                   (with_websocket (submit sample_platform queued_session
                                      (EIndex 0) VNull VNull) SocketOpen)
                   heartbeat_frame _)).
  intros tag Hin Heq. cbn in Heq. injection Heq as <-.
  repeat (apply elem_of_cons in Hin as [Hin | Hin]; [discriminate |]).
  by apply elem_of_nil in Hin.
Defined.

(** After [cancel], the late response of the run route still reaches the
    listeners: one more status event and a data event. *)
Lemma events_after_cancel :
  received 7 (step sample_platform direct_session (CallCancel 0)).2
  = [StatusEvent "/predict" (VNum 0) (plain_status "complete" false)]
  ∧ (step sample_platform
       (step sample_platform direct_session (CallCancel 0)).1
       (PostReturned 0 late_response 200)).2
    = [Deliver 7
         (StatusEvent "/predict" (VNum 0)
            (with_eta (plain_status "complete" false) (VNum 3)));
       Deliver 8 (DataEvent "/predict" (VNum 0) (VArr [VStr "done"]))].
Proof. split; vm_compute; reflexivity. Qed.

Lemma cancel_effects_witness :
  (step sample_platform queued_session (CallCancel 0)).2
  = [Deliver 7 (StatusEvent "/predict" (VNum 0) (plain_status "complete" false));
     PostReset 0 (VStr "k3x9")]
  ∧ (step sample_platform queued_session (ResetSettled 0)).2 = [CloseSocket 0].
Proof.
  split.
  - exact (f_equal snd
             (proj1 (cancel_effects sample_platform queued_session 0 _ eq_refl))).
  - refine (proj1 (proj2 (cancel_effects sample_platform queued_session 0 _
                            eq_refl) _)).
    discriminate.
Defined.


(** ** The schema normaliser *)

(** C8.  When the raw schema document has a named endpoint ["/predict"]
    and no unnamed endpoint ["0"], [submit] finds the same schema entry for
    the number 0 and for the name ["/predict"] in the normalised document:
    the normal form of the raw ["/predict"] entry. *)
Theorem predict_alias (raw : ApiInfo ApiData) (e : EndpointInfo ApiData) :
  named_endpoints raw !! "/predict" = Some e →
  unnamed_endpoints raw !! "0" = None →
  resolve_api_info (view_api raw) (EIndex 0) = Entry (transform_endpoint e)
  ∧ resolve_api_info (view_api raw) (EIndex 0)
    = resolve_api_info (view_api raw) (EName "/predict").
Proof.
  intros Hnamed Hunnamed.
  assert (Hkey : pretty 0%Z = "0") by reflexivity.
  unfold resolve_api_info, endpoint_entry, view_api, alias_predict,
    transform_api_info.
  rewrite Hkey, Hnamed, Hunnamed. cbn.
  by rewrite !lookup_fmap, lookup_insert_eq, Hnamed.
Qed.

Lemma predict_alias_witness :
  resolve_api_info (view_api predict_only) (EIndex 0)
  = resolve_api_info (view_api predict_only) (EName "/predict").
Proof.
  exact (proj2 (predict_alias predict_only _ eq_refl eq_refl)).
Defined.

(** ** The wake-poll loop *)

Section wake_properties.
Variable has_status_callback : bool.
Variable resolved : option Config.
Variable discussions_enabled : string → bool.

Lemma waiting_stage_actions (stage name : string) :
  stage ∈ waiting_stages →
  ∃ status,
    sp_load_status status = "pending"
    ∧ check_space_status discussions_enabled (PollStage stage name)
      = [Callback status; SetTimeout 1000].
Proof.
  unfold waiting_stages. intros Hin.
  repeat (apply elem_of_cons in Hin as [-> | Hin];
          [eexists; split; [| reflexivity]; reflexivity |]).
  by apply elem_of_nil in Hin.
Qed.

(** While the stages are waiting stages the loop keeps exactly the calls
    it had scheduled, and the caller's callback is called once per
    answer, if there is one. *)
Lemma wake_poll_waiting (name : string) (stages : list string) (n : nat) :
  Forall (λ stage, stage ∈ waiting_stages) stages →
  let r := wake_poll has_status_callback resolved discussions_enabled (S n)
             ((λ stage, PollStage stage name) <$> stages) in
  r.1 = S n
  ∧ load_statuses r.2
    = (if has_status_callback then replicate (length stages) "pending" else [])
  ∧ resolutions r.2 = [].
Proof.
  induction 1 as [| stage stages Hstage _ IH]; cbn zeta.
  - cbn. by destruct has_status_callback.
  - destruct (waiting_stage_actions stage name Hstage) as (status & Hload & Hacts).
    assert (Hnot : String.eqb (sp_status status) "running" = false).
    { revert Hacts. unfold waiting_stages in Hstage.
      repeat (apply elem_of_cons in Hstage as [-> | Hstage];
              [cbn; intros [= <-]; reflexivity |]).
      by apply elem_of_nil in Hstage. }
    cbn [fmap list_fmap wake_poll]. rewrite Hacts. cbn [timers omap list_omap length].
    replace (n + 1)%nat with (S n) by lia.
    destruct (wake_poll _ _ _ (S n) _) as [n' seen] eqn:Hrest.
    cbn in IH. destruct IH as (-> & Hseen & Hres).
    cbn [fst snd]. split; [done |].
    cbn [mbind list_bind observe app]. unfold handle_space_sucess.
    rewrite Hnot. destruct has_status_callback; cbn.
    + rewrite Hload. unfold load_statuses in Hseen. rewrite Hseen. done.
    + done.
Qed.
End wake_properties.

(** C9.  With a status callback and a configuration that resolves once
    the space runs, the answers [BUILDING], [BUILDING], [RUNNING] call the
    status callback three times, with load status [pending], [pending],
    [complete], then resolve the client once, and leave no call scheduled.
    A [STOPPED], [SLEEPING] or [BUILDING] answer sets one timer, of 1000 ms,
    and however many such answers come, the loop still has its call
    scheduled after them. *)
Theorem wake_poll_scenario (config : Config) (discussions_enabled : string → bool)
    (name : string) (stages : list string) :
  Forall (λ stage, stage ∈ waiting_stages) stages →
  let wake := wake_poll true (Some config) discussions_enabled 1 in
  let scenario :=
    wake [PollStage "BUILDING" name; PollStage "BUILDING" name;
          PollStage "RUNNING" name] in
  scenario.1 = 0%nat
  ∧ load_statuses scenario.2 = ["pending"; "pending"; "complete"]
  ∧ resolutions scenario.2 = [config]
  ∧ (∃ before, scenario.2 = before ++ [Resolved config])
  ∧ Forall (λ stage,
      timers (check_space_status discussions_enabled (PollStage stage name))
      = [1000%Z]) stages
  ∧ (wake ((λ stage, PollStage stage name) <$> stages)).1 = 1%nat.
Proof.
  intros Hstages wake scenario.
  split; [reflexivity |]. split; [reflexivity |]. split; [reflexivity |].
  split; [by eexists [_; _; _; _; _] |]. split.
  - eapply Forall_impl; [exact Hstages |]. intros stage Hstage. cbn beta in *.
    by destruct (waiting_stage_actions discussions_enabled stage name Hstage)
      as (status & _ & ->).
  - apply (wake_poll_waiting true (Some config) discussions_enabled name stages 0
             Hstages).
Qed.

Lemma wake_poll_scenario_witness :
  (wake_poll true (Some queued_config) (λ _, false) 1
     ((λ stage, PollStage stage "user/space") <$>
        ["STOPPED"; "BUILDING"; "SLEEPING"; "BUILDING"])).1 = 1%nat.
Proof.
  refine (proj2 (proj2 (proj2 (proj2 (proj2
            (wake_poll_scenario queued_config (λ _, false) "user/space"
               ["STOPPED"; "BUILDING"; "SLEEPING"; "BUILDING"] _)))))).
  unfold waiting_stages. repeat constructor.
Defined.


(** ** The blob walk *)

Section walk_properties.
Variable pf : platform.
Variable api_info : api_entry.

Lemma walk_array (elems : list value) (type : value) (path : list key)
    (root : bool) :
  walk_refs pf (VArr elems) type path root api_info
  = walk_elems pf api_info root type path elems 0.
Proof.
  cbn [walk_refs]. generalize 0%nat.
  induction elems as [| v l IH]; intros i; [done |].
  cbn [walk_elems]. by rewrite <- IH.
Qed.

Lemma walk_object (props : list (string * value)) (type : value)
    (path : list key) (root : bool) :
  walk_refs pf (VObj props) type path root api_info
  = walk_props pf api_info path props.
Proof.
  cbn [walk_refs].
  induction props as [| [k v] l IH]; [done |].
  cbn [walk_props]. by rewrite <- IH.
Qed.

Lemma store_array (elems : list value) (type : value) (path : list key)
    (root : bool) :
  walk_and_store_blobs pf (VArr elems) type path root api_info
  = store_elems pf api_info root type path elems 0.
Proof.
  cbn [walk_and_store_blobs]. generalize 0%nat.
  induction elems as [| v l IH]; intros i; [done |].
  cbn [store_elems]. rewrite <- IH.
  destruct (if root then declared_component api_info i else Some type)
    as [component |]; [| done].
  cbn. by destruct (walk_and_store_blobs pf v component (path ++ [KIdx i])
                      false api_info).
Qed.

Lemma store_object (props : list (string * value)) (type : value)
    (path : list key) (root : bool) :
  walk_and_store_blobs pf (VObj props) type path root api_info
  = store_props pf api_info props path props.
Proof.
  cbn [walk_and_store_blobs].
  match goal with
  | |- ?each props = _ =>
      enough (∀ l, each l = store_props pf api_info props path l) as Hloop
        by apply Hloop
  end.
  induction l as [| [k v] l IH]; [done |].
  cbn [store_props]. rewrite <- IH.
  destruct (has_own_property props k) as [[|] |]; [| done | done].
  cbn. by destruct (walk_and_store_blobs pf v VUndefined (path ++ [KKey k])
                      false api_info).
Qed.

Lemma own_method_free_array (elems : list value) :
  own_method_free (VArr elems) = true →
  Forall (λ v, own_method_free v = true) elems.
Proof.
  cbn [own_method_free]. induction elems as [| v l IH]; [done |].
  intros [Hv Hl]%andb_prop. constructor; [done | by apply IH].
Qed.

Lemma own_method_free_object (props : list (string * value)) :
  own_method_free (VObj props) = true →
  assoc "hasOwnProperty" props = None
  ∧ Forall (λ kv, own_method_free kv.2 = true) props.
Proof.
  cbn [own_method_free].
  destruct (assoc "hasOwnProperty" props); [done |].
  intros Hall. split; [done |].
  induction props as [| [k v] l IH]; [done |].
  apply andb_prop in Hall as [Hv Hl]. constructor; [done | by apply IH].
Qed.

Lemma schema_readable_below (param : value) :
  schema_readable api_info false param = true.
Proof. unfold schema_readable. by destruct api_info. Qed.

(** A walk over a payload in which no object carries a [hasOwnProperty] of
    its own, with a schema entry whose components can be read, throws
    nowhere and leaves no property out. *)
Lemma walk_returns (param : value) :
  ∀ type path root,
    own_method_free param = true →
    schema_readable api_info root param = true →
    walk_and_store_blobs pf param type path root api_info
    = Some (walk_refs pf param type path root api_info).
Proof.
  induction param as [| | | | | bytes | bytes | elems IH | props IH |]
    using value_deep_ind; intros type path root Hfree Hread; try done.
  - cbn. by destruct (is_str type "Image").
  - rewrite store_array, walk_array.
    apply own_method_free_array in Hfree.
    assert (Hcomp : elems = [] ∨ ∀ i,
              (if root then declared_component api_info i else Some type)
              = Some (if root
                      then default VUndefined (declared_component api_info i)
                      else type)).
    { destruct elems as [| v l]; [by left | right]. intros i.
      destruct root; [| done]. by destruct api_info. }
    destruct Hcomp as [-> | Hcomp]; [done |]. clear Hread.
    generalize 0%nat.
    induction IH as [| v l Hv _ IHl]; intros i; [done |].
    apply Forall_cons in Hfree as [Hfree_v Hfree_l].
    cbn [store_elems walk_elems]. rewrite Hcomp. cbn.
    rewrite (Hv _ _ false Hfree_v (schema_readable_below v)). cbn.
    by rewrite (IHl Hfree_l).
  - rewrite store_object, walk_object.
    apply own_method_free_object in Hfree as [Hown Hfree].
    enough (Hloop : ∀ l,
              Forall (λ kv, ∀ type path root,
                        own_method_free kv.2 = true →
                        schema_readable api_info root kv.2 = true →
                        walk_and_store_blobs pf kv.2 type path root api_info
                        = Some (walk_refs pf kv.2 type path root api_info)) l →
              Forall (λ kv, own_method_free kv.2 = true) l →
              store_props pf api_info props path l
              = Some (walk_props pf api_info path l)) by by apply Hloop.
    intros l Hl. induction Hl as [| [k v] l Hv _ IHl]; intros Hfree_l; [done |].
    apply Forall_cons in Hfree_l as [Hfree_v Hfree_l].
    cbn [store_props walk_props]. unfold has_own_property. rewrite Hown. cbn.
    rewrite (Hv _ _ false Hfree_v (schema_readable_below v)). cbn.
    by rewrite (IHl Hfree_l).
Qed.

(** Whatever a walk returns, it returns references of [walk_refs], in
    their order. *)
Lemma walk_sublist (param : value) :
  ∀ type path root refs,
    walk_and_store_blobs pf param type path root api_info = Some refs →
    refs `sublist_of` walk_refs pf param type path root api_info.
Proof.
  induction param as [| | | | | bytes | bytes | elems IH | props IH |]
    using value_deep_ind; intros type path root refs;
    try (cbn; by intros [= <-]).
  - cbn. by destruct (is_str type "Image"); intros [= <-].
  - rewrite store_array, walk_array. revert refs. generalize 0%nat.
    induction IH as [| v l Hv _ IHl]; intros i refs;
      cbn [store_elems walk_elems]; [by intros [= <-] |].
    destruct (if root then declared_component api_info i else Some type)
      as [component |] eqn:Hcomp; [| done]. cbn.
    destruct (walk_and_store_blobs pf v component (path ++ [KIdx i]) false
                api_info) as [array_refs |] eqn:Hwalk; [| done]. cbn.
    destruct (store_elems pf api_info root type path l (S i))
      as [rest |] eqn:Hrest; [| done]. cbn. intros [= <-].
    apply sublist_app; [| by apply IHl].
    apply Hv in Hwalk. destruct root; [| by injection Hcomp as <-].
    by rewrite Hcomp.
  - rewrite store_object, walk_object.
    enough (Hloop : ∀ l refs,
              Forall (λ kv, ∀ type path root refs,
                        walk_and_store_blobs pf kv.2 type path root api_info
                        = Some refs →
                        refs `sublist_of`
                          walk_refs pf kv.2 type path root api_info) l →
              store_props pf api_info props path l = Some refs →
              refs `sublist_of` walk_props pf api_info path l)
      by (intros; by eapply Hloop).
    intros l refs' Hl. revert refs'.
    induction Hl as [| [k v] l Hv _ IHl]; intros refs';
      cbn [store_props walk_props]; [by intros [= <-] |].
    destruct (has_own_property props k) as [[|] |]; [| | done]; cbn.
    + destruct (walk_and_store_blobs pf v VUndefined (path ++ [KKey k]) false
                  api_info) as [child |] eqn:Hwalk; [| done]. cbn.
      destruct (store_props pf api_info props path l) as [rest |]; [| done].
      cbn. intros [= <-]. apply sublist_app; [by apply Hv | by apply IHl].
    + intros Hrest. by apply sublist_inserts_l, IHl.
Qed.


Lemma binary_leaves_array (elems : list value) :
  binary_leaves (VArr elems) = sum_list (binary_leaves <$> elems).
Proof.
  cbn [binary_leaves]. induction elems as [| v l IH]; [done |].
  cbn. by rewrite <- IH.
Qed.

Lemma binary_leaves_object (props : list (string * value)) :
  binary_leaves (VObj props) = sum_list ((λ kv, binary_leaves kv.2) <$> props).
Proof.
  cbn [binary_leaves]. induction props as [| [k v] l IH]; [done |].
  cbn. by rewrite <- IH.
Qed.

(** [walk_refs] has one reference per binary leaf. *)
Lemma walk_length (param : value) :
  ∀ type path root,
    length (walk_refs pf param type path root api_info) = binary_leaves param.
Proof.
  induction param as [| | | | | | | elems IH | props IH |] using value_deep_ind;
    intros type path root; try done.
  - cbn. by destruct (is_str type "Image").
  - rewrite walk_array, binary_leaves_array. generalize 0%nat.
    induction IH as [| v l Hv _ IHl]; intros i; [done |].
    cbn. by rewrite length_app, Hv, IHl.
  - rewrite walk_object, binary_leaves_object.
    induction IH as [| [k v] l Hv _ IHl]; [done |].
    cbn. by rewrite length_app, Hv, IHl.
Qed.

Lemma elem_of_walk_elems (r : blob_ref) (root : bool) (type : value)
    (path : list key) (l : list value) (i : nat) :
  r ∈ walk_elems pf api_info root type path l i →
  ∃ j v,
    l !! j = Some v
    ∧ r ∈ walk_refs pf v
            (if root
             then default VUndefined (declared_component api_info (i + j))
             else type)
            (path ++ [KIdx (i + j)]) false api_info.
Proof.
  revert i. induction l as [| v l IH]; intros i; cbn [walk_elems].
  - by intros ?%elem_of_nil.
  - rewrite elem_of_app. intros [Hr | Hr].
    + exists 0%nat, v. by rewrite Nat.add_0_r.
    + destruct (IH _ Hr) as (j & x & Hj & Hx).
      exists (S j), x. by rewrite Nat.add_succ_r.
Qed.

Lemma elem_of_walk_props (r : blob_ref) (path : list key)
    (l : list (string * value)) :
  r ∈ walk_props pf api_info path l →
  ∃ k v,
    (k, v) ∈ l
    ∧ r ∈ walk_refs pf v VUndefined (path ++ [KKey k]) false api_info.
Proof.
  induction l as [| [k v] l IH]; cbn [walk_props].
  - by intros ?%elem_of_nil.
  - rewrite elem_of_app. intros [Hr | Hr].
    + exists k, v. split; [left | done].
    + destruct (IH Hr) as (k' & x & Hin & Hx).
      exists k', x. split; [by right | done].
Qed.

Lemma assoc_distinct (k : string) (v : value) (l : list (string * value)) :
  NoDup l.*1 → (k, v) ∈ l → assoc k l = Some v.
Proof.
  induction l as [| [k' v'] l IH]; cbn.
  - by intros _ ?%elem_of_nil.
  - rewrite NoDup_cons, elem_of_cons. intros [Hk' Hl] [[= <- <-] | Hin].
    + by rewrite String.eqb_refl.
    + destruct (String.eqb_spec k' k) as [-> | _]; [| by apply IH].
      destruct Hk'. apply list_elem_of_fmap. by exists (k, v).
Qed.

Lemma distinct_keys_array (elems : list value) :
  distinct_keys (VArr elems) = true →
  Forall (λ v, distinct_keys v = true) elems.
Proof.
  cbn [distinct_keys]. induction elems as [| v l IH]; [done |].
  intros [Hv Hl]%andb_prop. constructor; [done | by apply IH].
Qed.

Lemma distinct_keys_object (props : list (string * value)) :
  distinct_keys (VObj props) = true →
  NoDup props.*1 ∧ Forall (λ kv, distinct_keys kv.2 = true) props.
Proof.
  cbn [distinct_keys]. intros [Hnd Hall]%andb_prop. split.
  - by apply bool_decide_eq_true in Hnd.
  - clear Hnd. induction props as [| [k v] l IH]; [done |].
    apply andb_prop in Hall as [Hv Hl]. constructor; [done | by apply IH].
Qed.



End walk_properties.


Example walk_mixed_payload :
  walk_and_store_blobs sample_platform mixed_payload VUndefined [] true
    (Entry image_endpoint)
  = Some [picture_ref; file_ref].
Proof. reflexivity. Qed.

Example handle_blob_mixed_payload :
  handle_blob sample_platform mixed_payload (Entry image_endpoint)
  = Some (VArr [VStr "QUJD";
                VObj [("caption", VStr "a cat");
                      ("file", VObj [("is_file", VBool true);
                                     ("name", VStr "/tmp/upload0");
                                     ("data", VNull)])];
                VNum 4]).
Proof. reflexivity. Qed.

Example update_object_past_the_end :
  update_object (VArr [VNum 1]) (VStr "x") [KIdx 3]
  = Some (VArr [VNum 1; VUndefined; VUndefined; VStr "x"]).
Proof. reflexivity. Qed.






(** ** The registry on its own *)

Lemma fire_event_on (lm : gmap string (list listener)) (l : listener)
    (e : Event) :
  fire_event (on lm (event_type e) l) e = fire_event lm e ++ [(l, e)].
Proof.
  unfold fire_event, on. rewrite lookup_insert_eq. cbn [default from_option id].
  by rewrite fmap_app.
Qed.

(** X1.  Listeners registered one after the other are called in the order of
    their registration, after those that were there. *)
Theorem fire_event_registration_order (lm : gmap string (list listener))
    (ls : list listener) (e : Event) :
  fire_event (foldl (λ m l, on m (event_type e) l) lm ls) e
  = fire_event lm e ++ ((λ l, (l, e)) <$> ls).
Proof.
  revert lm. induction ls as [| l ls IH]; intros lm; cbn [foldl fmap list_fmap].
  - by rewrite app_nil_r.
  - rewrite IH, fire_event_on, <- app_assoc. reflexivity.
Qed.

(** X2.  [off] takes every registration of the listener out of the calls for
    that event type, keeps the others in their order, and leaves the other
    event type alone. *)
Theorem fire_event_off (lm : gmap string (list listener)) (eventType : string)
    (l : listener) (e : Event) :
  fire_event (off lm eventType l) e
  = if bool_decide (event_type e = eventType)
    then filter (λ le, le.1 ≠ l) (fire_event lm e)
    else fire_event lm e.
Proof.
  unfold fire_event, off. case_bool_decide as Hty.
  - subst eventType. rewrite lookup_insert_eq. cbn [default from_option id].
    induction (default [] (lm !! event_type e)) as [| l' ls IH]; [done |].
    cbn [fmap list_fmap]. rewrite !filter_cons. cbn [fst].
    destruct (decide (l' ≠ l)); cbn [fmap list_fmap]; by rewrite IH.
  - by rewrite lookup_insert_ne.
Qed.

(** X3.  Registering a listener that was not registered and removing it again
    leaves the calls for every event as they were. *)
Theorem on_off_round_trip (lm : gmap string (list listener))
    (eventType : string) (l : listener) (e : Event) :
  l ∉ default [] (lm !! eventType) →
  fire_event (off (on lm eventType l) eventType l) e = fire_event lm e.
Proof.
  intros Hfresh. unfold fire_event, off, on.
  rewrite lookup_insert_eq, insert_insert_eq. cbn [default from_option id].
  destruct (decide (event_type e = eventType)) as [-> | Hne].
  - rewrite lookup_insert_eq. cbn [default from_option id]. f_equal.
    rewrite filter_app, filter_cons, filter_nil.
    destruct (decide (l ≠ l)); [done |]. rewrite app_nil_r.
    induction (default [] (lm !! eventType)) as [| l' ls IH]; [done |].
    apply not_elem_of_cons in Hfresh as [Hne Hfresh].
    rewrite filter_cons. destruct (decide (l' ≠ l)); [| done].
    by rewrite IH.
  - by rewrite lookup_insert_ne.
Qed.

Lemma on_off_round_trip_witness :
  fire_event (off (on (listener_map queued_session) "status" 9%nat) "status" 9%nat)
    (StatusEvent "/predict" (VNum 0) (plain_status "pending" true))
  = [(7%nat, StatusEvent "/predict" (VNum 0) (plain_status "pending" true))].
Proof.
  refine (on_off_round_trip (listener_map queued_session) "status" 9%nat _ _).
  vm_compute. intros Hin.
  apply elem_of_cons in Hin as [Hin | Hin]; [discriminate |].
  by apply elem_of_nil in Hin.
Defined.

(** ** More on frames *)

Section more_frames.
Variable pf : platform.

(** X4.  A [process_generating] frame that reports failure fires one status
    event, with status [error] and the frame's [output.error] as message,
    and nothing else: no data event, and the socket stays as it is. *)
Theorem generating_failure_keeps_socket (c : client) (s : nat)
    (sub : submission) (frame : value) :
  submissions c !! s = Some sub →
  sub_websocket sub ≠ NoSocket →
  field frame "msg" = VStr "process_generating" →
  truthy (field frame "success") = false →
  nullish (field frame "output") = false →
  let failure :=
    StatusEvent (sub_endpoint sub) (sub_fn_index sub)
      {| st_status := VStr "error";
         st_queue := VBool true;
         st_message := field (field frame "output") "error";
         st_size := VUndefined;
         st_position := VUndefined;
         st_eta := field frame "average_duration";
         st_progress := field frame "progress_data" |} in
  onmessage c sub frame = Some [Fire failure]
  ∧ step pf c (FrameReceived s frame)
    = (c, (λ l, Deliver l failure) <$> default [] (listener_map c !! "status")).
Proof.
  intros Hs Hws Hmsg Hsuccess Houtput failure.
  assert (Hon : onmessage c sub frame = Some [Fire failure]).
  { unfold onmessage, handle_message.
    rewrite (member_of_field _ _ _ Hmsg) by done. cbn.
    rewrite Hsuccess. cbn.
    rewrite (member_not_nullish _ _ Houtput). reflexivity. }
  split; [exact Hon |].
  unfold step. rewrite Hs.
  destruct (sub_websocket sub); [done | |]; rewrite Hon; cbn;
    by rewrite app_nil_r, deliveries_of_fire_event.
Qed.

(** X5.  A [queue_full] frame fires one status event, with status [error] and
    the fixed message, and closes the socket. *)
Theorem queue_full_closes (c : client) (s : nat) (sub : submission)
    (frame : value) :
  submissions c !! s = Some sub →
  sub_websocket sub ≠ NoSocket →
  field frame "msg" = VStr "queue_full" →
  let busy :=
    StatusEvent (sub_endpoint sub) (sub_fn_index sub)
      (with_message (plain_status "error" true) (VStr QUEUE_FULL_MSG)) in
  (step pf c (FrameReceived s frame)).2
  = ((λ l, Deliver l busy) <$> default [] (listener_map c !! "status"))
    ++ [CloseSocket s]
  ∧ sub_websocket <$> submissions (step pf c (FrameReceived s frame)).1 !! s
    = Some SocketClosed.
Proof.
  intros Hs Hws Hmsg busy.
  assert (Hon : onmessage c sub frame = Some [Fire busy; Close]).
  { unfold onmessage, handle_message.
    by rewrite (member_of_field _ _ _ Hmsg). }
  unfold step. rewrite Hs.
  destruct (sub_websocket sub); [done | |]; rewrite Hon; cbn;
    by rewrite deliveries_of_fire_event, list_lookup_alter_eq, Hs.
Qed.

(** X6.  A successful [process_completed] frame with an output fires the status
    event [complete], closes the socket and then fires the data event with
    [output.data], in that order. *)
Theorem process_completed_success (c : client) (sub : submission)
    (frame : value) :
  field frame "msg" = VStr "process_completed" →
  truthy (field frame "success") = true →
  truthy (field frame "output") = true →
  onmessage c sub frame
  = Some [Fire (StatusEvent (sub_endpoint sub) (sub_fn_index sub)
                  {| st_status := VStr "complete";
                     st_queue := VBool true;
                     st_message := VUndefined;
                     st_size := VUndefined;
                     st_position := VUndefined;
                     st_eta := field (field frame "output") "average_duration";
                     st_progress := field frame "progress_data" |});
          Close;
          Fire (DataEvent (sub_endpoint sub) (sub_fn_index sub)
                  (field (field frame "output") "data"))].
Proof.
  intros Hmsg Hsuccess Houtput.
  assert (Hnn : nullish (field frame "output") = false).
  { by destruct (field frame "output"). }
  unfold onmessage, handle_message.
  rewrite (member_of_field _ _ _ Hmsg) by done. cbn.
  rewrite Hsuccess. cbn.
  rewrite (member_not_nullish _ _ Hnn). cbn.
  by rewrite ?Hsuccess, ?Houtput.
Qed.

(** X7.  Whatever the frame, the socket handler fires at most one data event;
    when it does, the data event is its last action and its first action
    is a status event, with at most the close in between. *)
Theorem data_event_follows_status (c : client) (sub : submission)
    (frame : value) (acts : list action) :
  onmessage c sub frame = Some acts →
  Forall (λ a, is_data_action a = false) acts
  ∨ ∃ status data,
      acts = [Fire (StatusEvent (sub_endpoint sub) (sub_fn_index sub) status);
              Fire (DataEvent (sub_endpoint sub) (sub_fn_index sub) data)]
      ∨ acts = [Fire (StatusEvent (sub_endpoint sub) (sub_fn_index sub) status);
                Close;
                Fire (DataEvent (sub_endpoint sub) (sub_fn_index sub) data)].
Proof.
  unfold onmessage, handle_message, member.
  destruct (nullish frame); [done |]. cbn [mbind option_bind].
  repeat (match goal with
          | |- context [if is_str ?m ?t then _ else _] =>
              destruct (is_str m t)
          end; cbn;
          try (intros [= <-]; left; repeat constructor; done)).
  - destruct (negb (truthy (field frame "success"))),
      (nullish (field frame "output")); cbn; try done;
      destruct (truthy (field frame "success")); cbn;
      try destruct (truthy (field frame "output")); cbn;
      intros [= <-]; try (left; repeat constructor; done);
      right; eauto.
  - destruct (negb (truthy (field frame "success"))),
      (nullish (field frame "output")); cbn; try done;
      destruct (truthy (field frame "success")); cbn;
      try destruct (truthy (field frame "output")); cbn;
      intros [= <-]; try (left; repeat constructor; done);
      right; eauto.
Qed.
End more_frames.

(** ** The run route and the handshake *)

Section more_engine.
Variable pf : platform.

(** X8.  Every answer of the run route fires exactly one status event, with
    [queue] false: [complete] followed by the data event with
    [output.data] when the status code is 200 and there is an output,
    [error] and no data event otherwise. *)
Theorem post_then_reports (c : client) (sub : submission) (output : value)
    (status_code : Z) :
  let ok := Z.eqb status_code 200 && negb (nullish output) in
  ∃ status,
    st_queue status = VBool false
    ∧ st_status status = VStr (if ok then "complete" else "error")
    ∧ post_then c sub output status_code
      = Fire (StatusEvent (sub_endpoint sub) (sub_fn_index sub) status)
        :: (if ok
            then [Fire (DataEvent (sub_endpoint sub) (sub_fn_index sub)
                          (field output "data"))]
            else []).
Proof.
  unfold post_then, post_catch, member.
  destruct (Z.eqb status_code 200), (nullish output); cbn;
    (eexists; (split; [| split]); [| | reflexivity]); reflexivity.
Qed.

(** X9.  When [fetch] throws in [post_data], the status listeners of the
    submission get one event, with status [error], [queue] false and the
    fixed connection message; nothing else happens. *)
Theorem connection_failure_reported (c : client) (s : nat) (sub : submission) :
  submissions c !! s = Some sub →
  ∃ output status_code,
    post_data FetchThrew = Some (output, status_code)
    ∧ step pf c (PostReturned s output status_code)
      = (c,
         (λ l, Deliver l
                 (StatusEvent (sub_endpoint sub) (sub_fn_index sub)
                    (with_message (plain_status "error" false)
                       (VStr BROKEN_CONNECTION_MSG))))
           <$> default [] (listener_map c !! "status")).
Proof.
  intros Hs. eexists _, _. split; [reflexivity |].
  unfold step. rewrite Hs. cbn.
  by rewrite app_nil_r, deliveries_of_fire_event.
Qed.



(** X11.  On the queued path, the reply to [send_hash] carries the function
    index and the session hash, and the reply to [send_data] carries the
    payload assigned when [handle_blob] resolved, with the session hash;
    neither frame fires an event. *)
Theorem handshake_replies (c : client) (s : nat) (sub : submission)
    (_payload hash_frame data_frame : value) :
  submissions c !! s = Some sub →
  sub_blobs sub = Some _payload →
  skip_queue (sub_fn_index sub) (config c) = false →
  field hash_frame "msg" = VStr "send_hash" →
  field data_frame "msg" = VStr "send_data" →
  let joined := (step pf c (BlobsHandled s)).1 in
  step pf joined (FrameReceived s hash_frame)
  = (joined,
     [SendFrame s (VObj [("fn_index", sub_fn_index sub);
                         ("session_hash", VStr (session_hash c))])])
  ∧ step pf joined (FrameReceived s data_frame)
    = (joined,
       [SendFrame s (VObj [("data", _payload);
                           ("event_data", sub_event_data sub);
                           ("fn_index", sub_fn_index sub);
                           ("session_hash", VStr (session_hash c))])]).
Proof.
  intros Hs Hb Hq Hhash Hdata joined.
  assert (Hlt : (s < length (submissions c))%nat) by by eapply lookup_lt_Some.
  assert (Hjoined :
    submissions joined !! s
    = Some (with_websocket
              (with_payload sub
                 (VObj [("data", _payload); ("event_data", sub_event_data sub);
                        ("fn_index", sub_fn_index sub)]))
              SocketOpen)
    ∧ session_hash joined = session_hash c).
  { unfold joined, step. rewrite Hs, Hb. unfold submit_then. rewrite Hq. cbn.
    by rewrite list_lookup_alter_eq, list_lookup_insert_eq. }
  destruct Hjoined as [Hsub Hsession].
  split; unfold step; rewrite Hsub; cbn [sub_websocket with_websocket];
    unfold onmessage, handle_message.
  - rewrite (member_of_field _ _ _ Hhash) by done. cbn. by rewrite Hsession.
  - rewrite (member_of_field _ _ _ Hdata) by done. cbn. by rewrite Hsession.
Qed.
End more_engine.

(** ** More on the wake-poll loop *)

Section more_wake.
Variable resolved : option Config.
Variable discussions_enabled : string → bool.

Lemma timers_of_stage (stage name : string) :
  timers (check_space_status discussions_enabled (PollStage stage name))
  = if bool_decide (stage ∈ waiting_stages) then [1000%Z] else [].
Proof.
  unfold check_space_status, waiting_stages.
  destruct (String.eqb_spec stage "STOPPED") as [-> | H1]; [done |].
  destruct (String.eqb_spec stage "SLEEPING") as [-> | H2]; [done |].
  destruct (String.eqb_spec stage "RUNNING") as [-> | H3]; [done |].
  destruct (String.eqb_spec stage "RUNNING_BUILDING") as [-> | H4]; [done |].
  destruct (String.eqb_spec stage "BUILDING") as [-> | H5]; [done |].
  cbn. rewrite bool_decide_eq_false_2; [done |].
  rewrite !elem_of_cons, elem_of_nil. intros [-> | [-> | [-> | []]]]; done.
Qed.

(** X12.  The loop stops at the first answer that is not a waiting stage,
    asks for none of the later answers and leaves no timer.  What the
    caller sees depends on that answer.  A failed request: the status
    callback is called once, with the error "Could not get space status".
    An empty document: nothing, the callback is not called.  A running
    space: the callback is called with status "running", and the client
    resolves with its configuration, or, when that cannot be loaded, the
    callback is called again with the error "Could not load this space.".
    Any other stage: the callback is called once with status
    "space_error" and whether discussions are enabled.  Without a status
    callback the calls of it are left out. *)
Theorem wake_poll_stops (has_status_callback : bool) (response : poll_result)
    (rest : list poll_result) :
  (∀ stage name, response = PollStage stage name → stage ∉ waiting_stages) →
  wake_poll has_status_callback resolved discussions_enabled 1 (response :: rest)
  = (0%nat,
     match response with
     | PollFailed =>
         if has_status_callback then
           [StatusCallback
              {| sp_status := "error"; sp_load_status := "error";
                 sp_message := "Could not get space status";
                 sp_detail := "NOT_FOUND"; sp_discussions_enabled := None |}]
         else []
     | PollEmpty => []
     | PollStage stage space_name =>
         if String.eqb stage "RUNNING" || String.eqb stage "RUNNING_BUILDING"
         then
           (if has_status_callback then
              [StatusCallback
                 {| sp_status := "running"; sp_load_status := "complete";
                    sp_message := ""; sp_detail := stage;
                    sp_discussions_enabled := None |}]
            else [])
           ++ match resolved with
              | Some config => [Resolved config]
              | None =>
                  if has_status_callback
                  then [StatusCallback could_not_load] else []
              end
         else if has_status_callback then
           [StatusCallback
              {| sp_status := "space_error"; sp_load_status := "error";
                 sp_message := "This space is experiencing an issue.";
                 sp_detail := stage;
                 sp_discussions_enabled :=
                   Some (discussions_enabled space_name) |}]
         else []
     end).
Proof.
  intros Hstage.
  assert (Hstop : wake_poll has_status_callback resolved discussions_enabled 0
                    rest = (0%nat, [])) by by destruct rest.
  destruct response as [| | stage name]; cbn [wake_poll].
  - cbn. rewrite Hstop. by destruct has_status_callback.
  - cbn. by rewrite Hstop.
  - unfold check_space_status.
    destruct (String.eqb_spec stage "STOPPED") as [-> | H1].
    { destruct (Hstage _ _ eq_refl). unfold waiting_stages. set_solver. }
    destruct (String.eqb_spec stage "SLEEPING") as [-> | H2].
    { destruct (Hstage _ _ eq_refl). unfold waiting_stages. set_solver. }
    destruct (String.eqb_spec stage "RUNNING") as [-> | H3].
    { cbn. rewrite Hstop. by destruct has_status_callback, resolved. }
    destruct (String.eqb_spec stage "RUNNING_BUILDING") as [-> | H4].
    { cbn. rewrite Hstop. by destruct has_status_callback, resolved. }
    destruct (String.eqb_spec stage "BUILDING") as [-> | H5].
    { destruct (Hstage _ _ eq_refl). unfold waiting_stages. set_solver. }
    cbn. rewrite Hstop. unfold handle_space_sucess. cbn.
    by destruct has_status_callback.
Qed.

Lemma observe_without_callback (a : poll_action) :
  observe false resolved a
  = filter (λ e, is_status_callback e = false) (observe true resolved a).
Proof.
  destruct a as [status | ms]; [| done]. unfold observe, handle_space_sucess.
  destruct (String.eqb (sp_status status) "running"), resolved; done.
Qed.

(** X13.  Without a status callback the loop asks the same questions, sets the
    same timers and resolves the client the same way; only the calls of the
    callback are missing. *)
Theorem callback_only_observes (scheduled : nat) (responses : list poll_result) :
  wake_poll false resolved discussions_enabled scheduled responses
  = ((wake_poll true resolved discussions_enabled scheduled responses).1,
     filter (λ e, is_status_callback e = false)
       (wake_poll true resolved discussions_enabled scheduled responses).2).
Proof.
  revert scheduled. induction responses as [| response rest IH];
    intros [| n]; try done.
  cbn [wake_poll]. rewrite IH.
  destruct (wake_poll true _ _ _ rest) as [n' seen]. cbn [fst snd].
  f_equal. rewrite filter_app. f_equal.
  induction (check_space_status discussions_enabled response) as [| a acts IHa];
    [done |].
  cbn [mbind list_bind]. by rewrite filter_app, IHa, observe_without_callback.
Qed.

(** X14.  However the status route answers, at most one call of
    [check_space_status] is under way or scheduled, and the client is
    resolved at most once, by the first resolution of [client] or by the
    loop. *)
Theorem client_resolves_at_most_once (has_status_callback : bool)
    (initial : option Config) (space_id : option string)
    (responses : list poll_result) :
  let r := client_load has_status_callback initial resolved discussions_enabled
             space_id responses in
  r.1 ≤ 1 ∧ length (resolutions r.2) ≤ 1.
Proof.
  assert (Hloop : ∀ responses scheduled,
    scheduled ≤ 1 →
    let r := wake_poll has_status_callback resolved discussions_enabled
               scheduled responses in
    r.1 ≤ 1 ∧ length (resolutions r.2) ≤ 1).
  { clear responses. induction responses as [| response rest IH];
      intros [| n] Hn; cbn zeta; cbn [wake_poll fst snd]; try (cbn; lia).
    assert (n = 0) as -> by lia. cbn [Nat.add].
    destruct response as [| | stage name].
    - destruct rest; cbn; destruct has_status_callback; cbn; lia.
    - destruct rest; cbn; lia.
    - rewrite timers_of_stage. case_bool_decide as Hstage.
      + cbn [length]. specialize (IH 1 ltac:(lia)). cbn zeta in IH.
        destruct (wake_poll _ _ _ 1 rest) as [n' seen]. cbn [fst snd] in *.
        destruct (waiting_stage_actions discussions_enabled stage name Hstage)
          as (status & Hload & Hacts).
        assert (Hnot : String.eqb (sp_status status) "running" = false).
        { revert Hacts. clear -Hstage. unfold waiting_stages in Hstage.
          repeat (apply elem_of_cons in Hstage as [-> | Hstage];
                  [cbn; intros [= <-]; reflexivity |]).
          by apply elem_of_nil in Hstage. }
        rewrite Hacts.
        split; [lia |]. unfold resolutions in *.
        cbn [mbind list_bind observe]. unfold handle_space_sucess.
        rewrite Hnot. rewrite !omap_app.
        destruct has_status_callback; cbn; lia.
      + cbn [length].
        replace (wake_poll has_status_callback resolved discussions_enabled 0 rest)
          with (0, @nil load_event) by by destruct rest.
        cbn [fst snd]. split; [lia |]. rewrite app_nil_r.
        unfold check_space_status.
        repeat (case_match; try done);
          cbn; unfold handle_space_sucess; cbn;
          destruct has_status_callback, resolved; cbn; lia. }
  unfold client_load. destruct initial; [cbn; lia |].
  destruct space_id as [id |]; [| destruct has_status_callback; cbn; lia].
  destruct (negb (String.eqb id "")); [| destruct has_status_callback; cbn; lia].
  by apply Hloop.
Qed.
End more_wake.

(** ** More on the schema and on resolution *)

(** X15.  In the normalised document every endpoint's [returns] is its
    [parameters]. *)
Theorem normalised_returns_are_parameters (raw : ApiInfo ApiData) (key : string)
    (e : EndpointInfo JsApiData) :
  named_endpoints (view_api raw) !! key = Some e
  ∨ unnamed_endpoints (view_api raw) !! key = Some e →
  returns e = parameters e.
Proof.
  unfold view_api, transform_api_info. cbn [named_endpoints unnamed_endpoints].
  rewrite !lookup_fmap.
  intros [He | He]; apply fmap_Some in He as (e0 & _ & ->); reflexivity.
Qed.

Lemma normalised_returns_are_parameters_witness :
  returns (transform_endpoint {| parameters := [text_parameter]; returns := [] |})
  = parameters
      (transform_endpoint {| parameters := [text_parameter]; returns := [] |}).
Proof.
  exact (normalised_returns_are_parameters predict_only "0" _
           (or_intror eq_refl)).
Defined.

(** X16.  Normalisation adds at most the unnamed key ["0"]: the named endpoints
    are the raw ones, each in normal form, and so is every unnamed endpoint
    under another key, and the unnamed endpoint 0 itself when the raw
    document has one. *)
Theorem normalisation_keeps_endpoints (raw : ApiInfo ApiData) (key : string) :
  key ≠ "0" ∨ is_Some (unnamed_endpoints raw !! "0") →
  named_endpoints (view_api raw) !! key
  = transform_endpoint <$> named_endpoints raw !! key
  ∧ unnamed_endpoints (view_api raw) !! key
    = transform_endpoint <$> unnamed_endpoints raw !! key.
Proof.
  intros Hkey. unfold view_api, alias_predict, transform_api_info.
  destruct (named_endpoints raw !! "/predict") as [e |] eqn:Hnamed;
    destruct (unnamed_endpoints raw !! "0") as [e0 |] eqn:Hzero;
    cbn [named_endpoints unnamed_endpoints]; rewrite !lookup_fmap; try done.
  destruct Hkey as [Hkey | [? [=]]].
  by rewrite lookup_insert_ne.
Qed.

Lemma normalisation_keeps_endpoints_witness :
  unnamed_endpoints (view_api both_endpoints) !! "0"
  = Some (transform_endpoint {| parameters := [gallery_parameter]; returns := [] |}).
Proof.
  exact (proj2 (normalisation_keeps_endpoints both_endpoints "0"
                  (or_intror (ex_intro _ _ eq_refl)))).
Defined.

(** X17.  Whatever the declared type and the component, [get_type] answers with
    one of eight values. *)
Theorem get_type_closed (type : list (string * value)) (component : string) :
  get_type type component ∈ js_types.
Proof.
  unfold get_type, js_types.
  repeat (match goal with
          | |- context [if ?b then _ else _] => destruct b
          end; [set_solver |]).
  set_solver.
Qed.

Section more_resolution.
Variable pf : platform.

End more_resolution.

(** X19.  With a configuration on the page and another origin than the
    development one, [resolve_config] asks no server and prefixes the
    [root] of the page's own object: a second resolution on the same page
    finds the prefixed root, prefixes it again and gives it as [path]. *)
Theorem resolve_config_prefixes_again (w : page) (config : config_document)
    (e1 e2 : string) (r1 r2 : config_fetch) :
  gradio_config w = Some config →
  location_origin w ≠ "http://localhost:9876" →
  let first := resolve_config (Some w) (Some e1) r1 in
  let second := resolve_config first.1 (Some e2) r2 in
  first.2 = ConfigOk {| cd_root := e1 +:+ cd_root config;
                        cd_path := Some (cd_root config);
                        cd_members := cd_members config |}
  ∧ second.2 = ConfigOk {| cd_root := e2 +:+ (e1 +:+ cd_root config);
                           cd_path := Some (e1 +:+ cd_root config);
                           cd_members := cd_members config |}.
Proof.
  intros Hconfig Horigin first second.
  apply String.eqb_neq in Horigin.
  unfold second, first, resolve_config. rewrite Hconfig, Horigin. cbn.
  by rewrite Horigin.
Qed.

Lemma resolve_config_prefixes_again_witness :
  (resolve_config
     (resolve_config (Some injected_page) (Some "https://a.hf.space")
        ConfigFetchThrew).1
     (Some "https://a.hf.space") ConfigFetchThrew).2
  = ConfigOk {| cd_root := "https://a.hf.spacehttps://a.hf.space/app";
                cd_path := Some "https://a.hf.space/app";
                cd_members := [("enable_queue", VBool true)] |}.
Proof.
  refine (proj2 (resolve_config_prefixes_again injected_page _
                   "https://a.hf.space" "https://a.hf.space"
                   ConfigFetchThrew ConfigFetchThrew eq_refl _)).
  discriminate.
Defined.

(** X20.  Without a configuration on the page, [resolve_config] succeeds only
    for a non-empty endpoint whose config route answers 200 with a
    document; the result has the endpoint as [root] and a [path], the
    empty one when the document has none, and the page is left alone. *)
Theorem resolve_config_from_server (window : option page)
    (endpoint : option string) (r : config_fetch) (config : config_document) :
  (∀ w, window = Some w → gradio_config w = None) →
  (resolve_config window endpoint r).2 = ConfigOk config →
  (resolve_config window endpoint r).1 = window
  ∧ ∃ e body,
      endpoint = Some e ∧ e ≠ ""
      ∧ r = ConfigAnswered 200 (Some body)
      ∧ cd_root config = e
      ∧ cd_path config = Some (default "" (cd_path body))
      ∧ cd_members config = cd_members body.
Proof.
  intros Hpage.
  assert (Hfetch : resolve_config window endpoint r
                   = (window, fetch_config endpoint r)).
  { unfold resolve_config. destruct window as [w |]; [| done].
    by rewrite (Hpage w eq_refl). }
  rewrite Hfetch. cbn [fst snd]. unfold fetch_config.
  destruct endpoint as [e |]; [| done].
  destruct (String.eqb_spec e "") as [-> | He]; [done |]. cbn [negb].
  destruct r as [| status body]; [done |].
  destruct (Z.eqb_spec status 200) as [-> | Hstatus]; [| done].
  destruct body as [body |]; [| done].
  intros [= <-]. split; [done |]. by exists e, body.
Qed.

Lemma resolve_config_from_server_witness :
  (resolve_config None (Some "https://a.hf.space")
     (ConfigAnswered 200
        (Some {| cd_root := ""; cd_path := None; cd_members := [] |}))).1
  = None.
Proof.
  refine (proj1 (resolve_config_from_server None (Some "https://a.hf.space")
                   (ConfigAnswered 200
                      (Some {| cd_root := ""; cd_path := None;
                               cd_members := [] |}))
                   _ _ eq_refl)).
  intros w [=].
Defined.

(** ** [predict] *)

Section predict_properties.
Variable pf : platform.
Variables l_data l_status : listener.

Lemma settle_settled (p : promise) (out : list effect) :
  p ≠ Pending → foldl (settle l_data l_status) p out = p.
Proof.
  intros Hp. induction out as [| x out IH]; [done |].
  cbn [foldl]. by destruct p.
Qed.

Lemma settle_quiet_status (endpoint : string) (fn_index : value)
    (status : Status) (ls : list listener) :
  is_str (st_status status) "error" = false →
  l_data ∉ ls →
  foldl (settle l_data l_status) Pending
    ((λ l, Deliver l (StatusEvent endpoint fn_index status)) <$> ls)
  = Pending.
Proof.
  intros Hquiet. induction ls as [| l ls IH]; [done |].
  intros [Hl Hls]%not_elem_of_cons. cbn [fmap list_fmap foldl settle].
  rewrite bool_decide_eq_false_2 by done. rewrite Hquiet.
  destruct (bool_decide (l = l_status)); by apply IH.
Qed.

Lemma settle_error_status (endpoint : string) (fn_index : value)
    (status : Status) (ls : list listener) :
  is_str (st_status status) "error" = true →
  l_data ∉ ls →
  l_status ∈ ls →
  foldl (settle l_data l_status) Pending
    ((λ l, Deliver l (StatusEvent endpoint fn_index status)) <$> ls)
  = Rejected (StatusEvent endpoint fn_index status).
Proof.
  intros Herror. induction ls as [| l ls IH]; [by intros _ ?%elem_of_nil |].
  intros [Hl Hls]%not_elem_of_cons Hin. cbn [fmap list_fmap foldl settle].
  rewrite bool_decide_eq_false_2 by done. rewrite Herror.
  case_bool_decide as Heq.
  - by apply settle_settled.
  - apply IH; [done |]. apply elem_of_cons in Hin as [-> | Hin]; done.
Qed.

Lemma settle_data (endpoint : string) (fn_index data : value)
    (ls : list listener) :
  l_data ∈ ls →
  foldl (settle l_data l_status) Pending
    ((λ l, Deliver l (DataEvent endpoint fn_index data)) <$> ls)
  = Fulfilled (DataEvent endpoint fn_index data).
Proof.
  induction ls as [| l ls IH]; [by intros ?%elem_of_nil |].
  intros Hin. cbn [fmap list_fmap foldl settle].
  case_bool_decide as Heq; [by apply settle_settled |].
  apply elem_of_cons in Hin as [-> | Hin]; [done |].
  destruct (bool_decide (l = l_status)); by apply IH.
Qed.

(** X21.  [predict] on the skip-queue path, on a client on which nothing
    else happens between the call, the resolution of [handle_blob] and the
    answer of the run route: when the run route answers 200 with an output,
    the promise is fulfilled with the data event of the answer; with any
    other answer it is rejected with the status event [error].  (An event
    that another submission fires in between reaches the same two
    listeners and settles the promise first, as in C7.) *)
Theorem predict_settles (c : client) (endpoint : endpoint_ref)
    (data event_data _payload output : value) (status_code : Z) :
  l_data ≠ l_status →
  l_data ∉ default [] (listener_map c !! "status") →
  handle_blob pf data (resolve_api_info (api c) endpoint) = Some _payload →
  skip_queue (resolve_fn_index (api_map c) endpoint) (config c) = true →
  let s := length (submissions c) in
  let called := predict pf c endpoint data event_data l_data l_status in
  foldl (settle l_data l_status) Pending
    (run pf called [BlobsHandled s; PostReturned s output status_code]).2
  = if Z.eqb status_code 200 && negb (nullish output)
    then Fulfilled
           (DataEvent (resolve_endpoint endpoint)
              (resolve_fn_index (api_map c) endpoint) (field output "data"))
    else Rejected
           (StatusEvent (resolve_endpoint endpoint)
              (resolve_fn_index (api_map c) endpoint)
              (with_message (plain_status "error" false)
                 (if nullish output then VStr (type_error_message c)
                  else field output "error"))).
Proof.
  intros Hdistinct Hfresh Hblobs Hskip s called.
  set (sub := submit pf c endpoint data event_data).
  assert (Hcalled :
    submissions called = submissions c ++ [sub]
    ∧ listener_map called
      = on (on (listener_map c) "data" l_data) "status" l_status
    ∧ config called = config c
    ∧ type_error_message called = type_error_message c).
  { unfold called, predict. cbn [run step].
    assert (Hlast : (submissions c ++ [sub]) !! length (submissions c) = Some sub)
      by by rewrite lookup_app_r, Nat.sub_diag.
    cbn [with_submissions submissions]. fold sub. rewrite Hlast.
    cbn [with_listener_map with_submissions submissions listener_map]. rewrite Hlast.
    done. }
  destruct Hcalled as (Hsubs & Hlm & Hconfig & Herr).
  assert (Hsub : submissions called !! s = Some sub).
  { by rewrite Hsubs, lookup_app_r, Nat.sub_diag. }
  assert (Hstatus : default [] (listener_map called !! "status")
                    = default [] (listener_map c !! "status") ++ [l_status]).
  { rewrite Hlm. unfold on at 1. rewrite lookup_insert_eq. cbn.
    unfold on. by rewrite lookup_insert_ne. }
  assert (Hdata : default [] (listener_map called !! "data")
                  = default [] (listener_map c !! "data") ++ [l_data]).
  { rewrite Hlm. unfold on at 1. rewrite lookup_insert_ne by done.
    unfold on. by rewrite lookup_insert_eq. }
  assert (Hnotin : l_data ∉ default [] (listener_map called !! "status")).
  { rewrite Hstatus, not_elem_of_app, not_elem_of_cons.
    split; [done |]. split; [done | apply not_elem_of_nil]. }
  assert (Hin : l_status ∈ default [] (listener_map called !! "status")).
  { rewrite Hstatus. set_solver. }
  assert (Hind : l_data ∈ default [] (listener_map called !! "data")).
  { rewrite Hdata. set_solver. }
  cbn [run]. unfold step at 1. rewrite Hsub.
  change (sub_blobs sub) with
    (handle_blob pf data (resolve_api_info (api c) endpoint)).
  rewrite Hblobs. unfold submit_then. rewrite Hconfig.
  change (sub_fn_index sub) with (resolve_fn_index (api_map c) endpoint).
  rewrite Hskip. cbn [perform perform1].
  set (posted := with_submissions called _).
  assert (Hposted : submissions posted !! s
                    = Some (with_payload sub
                              (VObj [("data", _payload);
                                     ("event_data", sub_event_data sub);
                                     ("fn_index",
                                      resolve_fn_index (api_map c) endpoint)]))).
  { unfold posted. cbn [with_submissions submissions].
    apply list_lookup_insert_eq. by eapply lookup_lt_Some. }
  unfold step. rewrite Hposted.
  assert (Hlm' : listener_map posted = listener_map called) by done.
  assert (Herr' : type_error_message posted = type_error_message c) by done.
  unfold post_then, post_catch, member. rewrite Herr'.
  cbn [sub_endpoint sub_fn_index with_payload].
  change (sub_fn_index sub) with (resolve_fn_index (api_map c) endpoint).
  change (sub_endpoint sub) with (resolve_endpoint endpoint).
  destruct (Z.eqb status_code 200) eqn:Hcode, (nullish output) eqn:Hnull;
    cbn [andb negb perform perform1 snd fst];
    rewrite ?app_nil_r, ?deliveries_of_fire_event, ?Hlm'; cbn [event_type];
    rewrite !foldl_app; cbn [foldl settle];
    rewrite settle_quiet_status by done; cbn [foldl settle].
  - by apply settle_error_status.
  - rewrite settle_quiet_status by done. by apply settle_data.
  - by apply settle_error_status.
  - by apply settle_error_status.
Qed.
End predict_properties.

Lemma predict_settles_witness :
  foldl (settle 1%nat 2%nat) Pending
    (run sample_platform
       (predict sample_platform (fresh_client direct_config no_schema two_names)
          (EName "/a") (VArr [VStr "hi"]) VNull 1%nat 2%nat)
       [BlobsHandled 0; PostReturned 0 late_response 200]).2
  = Fulfilled (DataEvent "/a" (VNum 0) (VArr [VStr "done"])).
Proof.
  refine (predict_settles sample_platform 1%nat 2%nat
            (fresh_client direct_config no_schema two_names)
            (EName "/a") (VArr [VStr "hi"]) VNull _ late_response 200
            _ _ eq_refl eq_refl).
  - discriminate.
  - apply not_elem_of_nil.
Defined.

(** ** More on the blob walk *)

Section more_walk.
Variable pf : platform.
Variable api_info : api_entry.

Lemma inherited_type_undefined (suffix : list key) :
  inherited_type VUndefined suffix = VUndefined.
Proof. unfold inherited_type. by destruct (forallb is_index suffix). Qed.

Lemma walk_inherits (param : value) :
  ∀ type path r,
    r ∈ walk_refs pf param type path false api_info →
    ∃ suffix,
      ref_path r = path ++ suffix ∧ ref_type r = inherited_type type suffix.
Proof.
  induction param as [| | | | | bytes | bytes | elems IH | props IH |]
    using value_deep_ind; intros type path r;
    try (cbn; by intros ?%elem_of_nil).
  - cbn. intros ->%list_elem_of_singleton. exists []. by rewrite app_nil_r.
  - cbn. destruct (is_str type "Image");
      intros ->%list_elem_of_singleton; exists []; by rewrite app_nil_r.
  - rewrite walk_array. intros (j & v & Hj & Hr)%elem_of_walk_elems.
    rewrite Forall_lookup in IH.
    destruct (IH j v Hj _ _ _ Hr) as (suffix & Hpath & Htype).
    exists (KIdx j :: suffix). by rewrite Hpath, <- app_assoc.
  - rewrite walk_object. intros (k & v & Hin & Hr)%elem_of_walk_props.
    rewrite Forall_forall in IH.
    destruct (IH (k, v) Hin _ _ _ Hr) as (suffix & Hpath & Htype).
    exists (KKey k :: suffix). rewrite Hpath, <- app_assoc. split; [done |].
    by rewrite Htype, inherited_type_undefined.
Qed.

Lemma walk_expected_type (data : value) (r : blob_ref) :
  r ∈ walk_refs pf data VUndefined [] true api_info →
  ref_type r = expected_type api_info (ref_path r).
Proof.
  destruct data as [| | | | | bytes | bytes | elems | props |];
    try (cbn; by intros ?%elem_of_nil).
  - cbn. by intros ->%list_elem_of_singleton.
  - cbn. by intros ->%list_elem_of_singleton.
  - rewrite walk_array. intros (j & v & Hj & Hr)%elem_of_walk_elems.
    destruct (walk_inherits v _ _ _ Hr) as (suffix & -> & ->). done.
  - rewrite walk_object. intros (k & v & Hin & Hr)%elem_of_walk_props.
    destruct (walk_inherits v _ _ _ Hr) as (suffix & -> & ->).
    by rewrite inherited_type_undefined.
Qed.

(** X22.  The component of a reference is read off its path: the declared
    component of the argument it lies in when the path runs through arrays
    only, and none when it runs through an object. *)
Theorem reference_type_from_path (data : value) (refs : list blob_ref)
    (r : blob_ref) :
  walk_and_store_blobs pf data VUndefined [] true api_info = Some refs →
  r ∈ refs →
  ref_type r = expected_type api_info (ref_path r).
Proof.
  intros Hwalk%walk_sublist Hr. apply (walk_expected_type data).
  by eapply elem_of_sublist.
Qed.

Lemma walk_populated (param : value) :
  ∀ type path root r,
    r ∈ walk_refs pf param type path root api_info →
    if is_str (ref_type r) "Image"
    then truthy (ref_blob r) = false ∧ ∃ s, ref_data r = VStr s
    else truthy (ref_data r) = false ∧ ∃ bytes, ref_blob r = VBlob bytes.
Proof.
  induction param as [| | | | | bytes | bytes | elems IH | props IH |]
    using value_deep_ind; intros type path root r;
    try (cbn; by intros ?%elem_of_nil).
  - cbn. intros ->%list_elem_of_singleton. cbn.
    destruct (is_str type "Image"); eauto.
  - cbn. destruct (is_str type "Image") eqn:Himage;
      intros ->%list_elem_of_singleton; cbn; rewrite Himage; eauto.
  - rewrite walk_array. intros (j & v & Hj & Hr)%elem_of_walk_elems.
    rewrite Forall_lookup in IH. by eapply IH.
  - rewrite walk_object. intros (k & v & Hin & Hr)%elem_of_walk_props.
    rewrite Forall_forall in IH. by eapply (IH (k, v)).
Qed.

(** X23.  A reference of component [Image] carries its data as a string and no
    blob; every other reference carries a blob and no data. *)
Theorem reference_populated (data : value) (refs : list blob_ref)
    (r : blob_ref) :
  walk_and_store_blobs pf data VUndefined [] true api_info = Some refs →
  r ∈ refs →
  if is_str (ref_type r) "Image"
  then truthy (ref_blob r) = false ∧ ∃ s, ref_data r = VStr s
  else truthy (ref_data r) = false ∧ ∃ bytes, ref_blob r = VBlob bytes.
Proof.
  intros Hwalk%walk_sublist Hr. eapply walk_populated.
  by eapply elem_of_sublist.
Qed.

Lemma walk_prefix (param : value) (type : value) (path : list key) (r : blob_ref) :
  r ∈ walk_refs pf param type path false api_info →
  ∃ suffix, ref_path r = path ++ suffix.
Proof.
  intros (suffix & Hpath & _)%walk_inherits. eauto.
Qed.

Lemma walk_paths_distinct (param : value) :
  distinct_keys param = true →
  ∀ type path root,
    NoDup (ref_path <$> walk_refs pf param type path root api_info).
Proof.
  induction param as [| | | | | bytes | bytes | elems IH | props IH |]
    using value_deep_ind; intros Hkeys type path root;
    try (cbn; by apply NoDup_nil).
  - cbn. apply NoDup_singleton.
  - cbn. destruct (is_str type "Image"); apply NoDup_singleton.
  - rewrite walk_array. apply distinct_keys_array in Hkeys.
    generalize 0%nat.
    induction elems as [| v l IHl]; intros i; cbn [walk_elems];
      [apply NoDup_nil_2 |].
    apply Forall_cons in IH as [IHv IH]. apply Forall_cons in Hkeys as [Hv Hkeys].
    rewrite fmap_app. apply NoDup_app. split; [by apply IHv |].
    split; [| by apply IHl].
    intros p (r & -> & Hr)%list_elem_of_fmap (r' & Heq & Hr')%list_elem_of_fmap.
    apply walk_prefix in Hr as (suffix & Hpath).
    apply elem_of_walk_elems in Hr' as (j & v' & _ & Hr').
    apply walk_prefix in Hr' as (suffix' & Hpath').
    rewrite Hpath, Hpath', <- !app_assoc in Heq.
    apply app_inv_head in Heq. cbn in Heq. injection Heq as Hij _. lia.
  - rewrite walk_object. apply distinct_keys_object in Hkeys as [Hnd Hkeys].
    induction props as [| [k v] l IHl]; cbn [walk_props]; [apply NoDup_nil_2 |].
    apply Forall_cons in IH as [IHv IH]. apply Forall_cons in Hkeys as [Hv Hkeys].
    cbn in Hnd. apply NoDup_cons in Hnd as [Hk Hnd].
    rewrite fmap_app. apply NoDup_app. split; [by apply IHv |].
    split; [| by apply IHl].
    intros p (r & -> & Hr)%list_elem_of_fmap (r' & Heq & Hr')%list_elem_of_fmap.
    apply walk_prefix in Hr as (suffix & Hpath).
    apply elem_of_walk_props in Hr' as (k' & v' & Hin & Hr').
    apply walk_prefix in Hr' as (suffix' & Hpath').
    rewrite Hpath, Hpath', <- !app_assoc in Heq.
    apply app_inv_head in Heq. cbn in Heq. injection Heq as Hkk _.
    subst k'. destruct Hk. apply list_elem_of_fmap. by exists (k, v').
Qed.

(** X24.  The references of a payload have pairwise distinct paths, so no two
    reinsertions write to the same place. *)
Theorem reference_paths_distinct (data : value) (refs : list blob_ref) :
  distinct_keys data = true →
  walk_and_store_blobs pf data VUndefined [] true api_info = Some refs →
  NoDup (ref_path <$> refs).
Proof.
  intros Hkeys Hwalk%walk_sublist.
  eapply sublist_NoDup; [by apply walk_paths_distinct |].
  by apply fmap_sublist.
Qed.
End more_walk.

(** ** [update_object] *)

Lemma assoc_assoc_set (k : string) (v : value) (kvs : list (string * value)) :
  assoc k (assoc_set k v kvs) = Some v.
Proof.
  induction kvs as [| [k' v'] kvs IH]; cbn.
  - by rewrite String.eqb_refl.
  - destruct (String.eqb k' k) eqn:Hk; cbn.
    + by rewrite String.eqb_refl.
    + by rewrite Hk.
Qed.

Lemma array_index_bound (s : string) (len i : nat) :
  array_index (KKey s) len = Some i → (i < len)%nat ∧ pretty i = s.
Proof.
  unfold array_index. intros ([j x] & Hfind & Heq)%fmap_Some.
  cbn in Heq. subst j.
  apply list_find_Some in Hfind as (Hj & Hx & _).
  apply lookup_seq in Hj as [-> Hlt]. cbn in *.
  split; [done |]. by apply bool_decide_unpack in Hx.
Qed.

Lemma get_prop_set_prop (object : value) (k : key) (v old : value) :
  get_prop object k = Some old →
  ∃ object', set_prop object k v = Some object' ∧ get_prop object' k = Some v.
Proof.
  destruct object as [| | | | | | | l | kvs |]; try done; cbn.
  - destruct (array_index k (length l)) as [i |] eqn:Hi; [| done]. intros _.
    case_bool_decide as Hlt; eexists; (split; [reflexivity |]); cbn.
    + rewrite length_insert, Hi. by rewrite list_lookup_insert_eq.
    + assert (Hk : ∃ j, k = KIdx j).
      { destruct k as [j | s]; [by eexists |].
        apply array_index_bound in Hi as [? _]. lia. }
      destruct Hk as [j ->]. cbn in Hi. injection Hi as ->. cbn.
      rewrite !app_assoc, lookup_app_r;
        rewrite length_app, length_replicate; [| lia].
      by replace (i - (length l + (i - length l)))%nat with 0%nat by lia.
  - intros Hold. exists (VObj (assoc_set (key_string k) v kvs)). split.
    + destruct (assoc (key_string k) kvs); [done |].
      by destruct (String.eqb (key_string k) "__proto__").
    + cbn. by rewrite assoc_assoc_set.
Qed.

Lemma update_object_step (object newValue : value) (k k' : key)
    (rest : list key) :
  update_object object newValue (k :: k' :: rest)
  = child ← get_prop object k;
    child' ← update_object child newValue (k' :: rest);
    set_prop object k child'.
Proof. reflexivity. Qed.

(** X25.  Writing a value with [update_object] along a path that can be
    followed, and following the path again, finds the value written. *)
Theorem update_object_then_get (object newValue : value) (stack : list key) :
  stack ≠ [] →
  is_Some (get_path object stack) →
  ∃ object',
    update_object object newValue stack = Some object'
    ∧ get_path object' stack = Some newValue.
Proof.
  revert object. induction stack as [| k rest IH]; intros object Hne Hget; [done |].
  destruct rest as [| k' rest'].
  - cbn in *. destruct (get_prop object k) as [old |] eqn:Hold;
      [| by destruct Hget].
    destruct (get_prop_set_prop object k newValue old Hold) as (object' & Hset & Hread).
    exists object'. by rewrite Hset, Hread.
  - cbn [get_path] in Hget. rewrite update_object_step. cbn [get_path].
    destruct (get_prop object k) as [child |] eqn:Hchild;
      [| by destruct Hget]. cbn [mbind option_bind] in *.
    destruct (IH child ltac:(done) Hget) as (child' & Hupdate & Hread).
    rewrite Hupdate. cbn [mbind option_bind].
    destruct (get_prop_set_prop object k child' child Hchild)
      as (object' & Hset & Hread').
    exists object'. rewrite Hset. split; [done |].
    rewrite Hread'. cbn [mbind option_bind]. exact Hread.
Qed.

Lemma update_object_then_get_witness :
  ∃ object',
    update_object mixed_payload (VStr "handle") [KIdx 1; KKey "file"]
    = Some object'
    ∧ get_path object' [KIdx 1; KKey "file"] = Some (VStr "handle").
Proof.
  refine (update_object_then_get mixed_payload (VStr "handle")
            [KIdx 1; KKey "file"] _ _).
  - discriminate.
  - by eexists.
Defined.

(** ** Reinsertion *)

Lemma entry_functional (object : value) (k : key) (x y : value) :
  entry object k x → entry object k y → x = y.
Proof. destruct object, k; cbn; try done; congruence. Qed.

Lemma is_binary_one (v : value) : is_binary v = true → binary_leaves v = 1%nat.
Proof. by destruct v. Qed.

Lemma binary_leaves_insert (l : list value) (i : nat) (x v : value) :
  l !! i = Some x →
  (binary_leaves (VArr (<[i:=v]> l)) + binary_leaves x
   = binary_leaves (VArr l) + binary_leaves v)%nat.
Proof.
  rewrite !binary_leaves_array. revert i.
  induction l as [| y l IH]; intros [| i]; cbn; try done.
  - intros [= ->]. lia.
  - intros Hi. specialize (IH i Hi). cbn in IH.
    rewrite <- !Nat.add_assoc. f_equal. exact IH.
Qed.

Lemma binary_leaves_assoc_set (kvs : list (string * value)) (s : string)
    (x v : value) :
  assoc s kvs = Some x →
  (binary_leaves (VObj (assoc_set s v kvs)) + binary_leaves x
   = binary_leaves (VObj kvs) + binary_leaves v)%nat.
Proof.
  rewrite !binary_leaves_object.
  induction kvs as [| [k y] kvs IH]; cbn; [done |].
  destruct (String.eqb k s); cbn.
  - intros [= ->]. lia.
  - intros Hs. specialize (IH Hs). lia.
Qed.

Lemma assoc_assoc_set_ne (kvs : list (string * value)) (s s' : string)
    (v : value) :
  s ≠ s' → assoc s' (assoc_set s v kvs) = assoc s' kvs.
Proof.
  intros Hne. induction kvs as [| [k y] kvs IH]; cbn.
  - by apply String.eqb_neq in Hne as ->.
  - destruct (String.eqb_spec k s) as [-> | Hk]; cbn.
    + by apply String.eqb_neq in Hne as ->.
    + by rewrite IH.
Qed.

(** Assigning to an entry that is there: what is read back, what the
    other entries are, and how the number of binary leaves changes. *)
Lemma set_prop_entry (object : value) (k : key) (x v : value) :
  entry object k x →
  ∃ object',
    set_prop object k v = Some object'
    ∧ get_prop object k = Some x
    ∧ is_binary object' = false
    ∧ entry object' k v
    ∧ (binary_leaves object' + binary_leaves x
       = binary_leaves object + binary_leaves v)%nat
    ∧ ∀ k' y, k ≠ k' → entry object k' y → entry object' k' y.
Proof.
  destruct object as [| | b | n | str | bs | bs | l | kvs | f], k as [i | s];
    try done; cbn.
  - intros Hi. pose proof (lookup_lt_Some _ _ _ Hi) as Hlt.
    rewrite bool_decide_eq_true_2 by done. rewrite Hi.
    eexists. split; [reflexivity |]. split; [done |]. split; [done |].
    split; [by apply list_lookup_insert_eq |].
    split; [by apply binary_leaves_insert |].
    intros [j | t] y Hne; [| done]. cbn.
    rewrite list_lookup_insert_ne; [done | congruence].
  - intros Hs. rewrite Hs.
    eexists. split; [reflexivity |]. split; [done |]. split; [done |].
    split; [by apply assoc_assoc_set |].
    split; [by apply binary_leaves_assoc_set |].
    intros [j | t] y Hne; [done |]. cbn.
    rewrite assoc_assoc_set_ne; [done | congruence].
Qed.

Lemma update_object_leaf (object : value) (path : list key) (old v : value) :
  path ≠ [] →
  leads_to object path old →
  ∃ object',
    update_object object v path = Some object'
    ∧ is_binary object' = false
    ∧ (binary_leaves object' + binary_leaves old
       = binary_leaves object + binary_leaves v)%nat
    ∧ ∀ q leaf, diverge path q → leads_to object q leaf → leads_to object' q leaf.
Proof.
  revert object. induction path as [| k rest IH]; intros object Hne; [done |].
  intros (x & Hentry & Hrest). destruct rest as [| k2 rest'].
  - cbn in Hrest. subst x.
    destruct (set_prop_entry object k old v Hentry)
      as (object' & Hset & _ & Hbin & _ & Hcount & Hframe).
    exists object'. split; [exact Hset |]. split; [done |]. split; [done |].
    intros [| k' q'] leaf; [done |]. intros [Hk | []] (y & Hy & Hleaf).
    exists y. split; [by apply Hframe | done].
  - rewrite update_object_step.
    destruct (IH x ltac:(done) Hrest) as (x' & Hupdate & _ & Hcount & Hframe).
    destruct (set_prop_entry object k x x' Hentry)
      as (object' & Hset & Hget & Hbin & Hnew & Hcount' & Hframe').
    rewrite Hget. cbn [mbind option_bind]. rewrite Hupdate. cbn [mbind option_bind].
    exists object'. split; [exact Hset |]. split; [done |]. split; [lia |].
    intros [| k' q'] leaf; [done |]. intros Hdiv (y & Hy & Hleaf).
    destruct (decide (k = k')) as [<- | Hk].
    + destruct Hdiv as [? | Hdiv]; [done |].
      rewrite (entry_functional _ _ _ _ Hy Hentry) in Hleaf.
      exists x'. split; [done | by apply Hframe].
    + exists y. split; [by apply Hframe' | done].
Qed.

Lemma binary_paths_diverge (object : value) (p q : list key) (a b : value) :
  leads_to object p a → leads_to object q b →
  is_binary a = true → is_binary b = true →
  p ≠ q → diverge p q.
Proof.
  revert object q. induction p as [| k p IH]; intros object [| k' q]; cbn.
  - done.
  - intros -> (x & Hx & _) Ha. by destruct a, k'.
  - intros (x & Hx & _) -> _ Hb. by destruct b, k.
  - intros (x & Hx & Ha) (y & Hy & Hb) Hbina Hbinb Hne.
    destruct (decide (k = k')) as [<- | Hk]; [| by left].
    right. rewrite (entry_functional _ _ _ _ Hy Hx) in Hb.
    eapply IH; [done | done | done | done | congruence].
Qed.

Lemma Forall2_impl_elem {A B : Type} (P Q : A → B → Prop) (l : list A)
    (k : list B) :
  Forall2 P l k → (∀ x y, x ∈ l → P x y → Q x y) → Forall2 Q l k.
Proof.
  induction 1 as [| x y l k Hxy _ IH]; intros Himpl; constructor.
  - apply Himpl; [by left | done].
  - apply IH. intros x' y' Hx'. apply Himpl. by right.
Qed.

Section reinsertion.
Variable pf : platform.
Variable api_info : api_entry.

Lemma walk_leads (param : value) :
  distinct_keys param = true →
  ∀ type path root r,
    r ∈ walk_refs pf param type path root api_info →
    ∃ suffix leaf,
      ref_path r = path ++ suffix
      ∧ leads_to param suffix leaf
      ∧ is_binary leaf = true.
Proof.
  induction param as [| | | | | bytes | bytes | elems IH | props IH |]
    using value_deep_ind; intros Hkeys type path root r;
    try (cbn; by intros ?%elem_of_nil).
  - cbn. intros ->%list_elem_of_singleton.
    exists [], (VBuffer bytes). by rewrite app_nil_r.
  - cbn. destruct (is_str type "Image");
      intros ->%list_elem_of_singleton;
      exists [], (VBlob bytes); by rewrite app_nil_r.
  - rewrite walk_array. intros (j & v & Hj & Hr)%elem_of_walk_elems.
    apply distinct_keys_array in Hkeys.
    rewrite Forall_lookup in IH. rewrite Forall_lookup in Hkeys.
    destruct (IH j v Hj (Hkeys j v Hj) _ _ _ _ Hr)
      as (suffix & leaf & Hpath & Hleaf & Hbin).
    exists (KIdx j :: suffix), leaf. rewrite Hpath, <- app_assoc.
    split; [done |]. split; [| done]. by exists v.
  - rewrite walk_object. intros (k & v & Hin & Hr)%elem_of_walk_props.
    apply distinct_keys_object in Hkeys as [Hnd Hkeys].
    rewrite Forall_forall in IH. rewrite Forall_forall in Hkeys.
    destruct (IH (k, v) Hin (Hkeys (k, v) Hin) _ _ _ _ Hr)
      as (suffix & leaf & Hpath & Hleaf & Hbin).
    exists (KKey k :: suffix), leaf. rewrite Hpath, <- app_assoc.
    split; [done |]. split; [| done]. exists v. split; [| done].
    by apply assoc_distinct.
Qed.

(** What [reinsert] writes for a reference whose image data is not empty
    or whose upload returned a handle that is not empty. *)
Lemma reinsert_writes (r : blob_ref) (u : upload_result) :
  upload_ref pf r = Some u →
  (if is_str (ref_type r) "Image"
   then truthy (ref_blob r) = false ∧ ∃ s, ref_data r = VStr s
   else truthy (ref_data r) = false ∧ ∃ bytes, ref_blob r = VBlob bytes) →
  (if is_str (ref_type r) "Image" then ref_data r ≠ VStr ""
   else ∃ url rest, upload_files pf (ref_blob r) = Some (url :: rest) ∧ url ≠ "") →
  ∃ written,
    binary_leaves written = 0%nat
    ∧ ∀ data, reinsert data u = update_object data written (ref_path r).
Proof.
  unfold upload_ref, reinsert.
  destruct (is_str (ref_type r) "Image") eqn:Himage.
  - intros Hu [Hblob [s Hdata]] Hne. rewrite Hblob in Hu. injection Hu as <-.
    rewrite Hdata in *. exists (VStr s). split; [done |]. intros data.
    assert (Htruthy : truthy (VStr s) = true).
    { cbn. apply negb_true_iff, String.eqb_neq. congruence. }
    cbn [up_base64 up_path]. by rewrite Htruthy.
  - intros Hu [Hdata [bytes Hblob]] (url & rest & Hup & Hurl).
    rewrite Hblob in *. cbn in Hu. rewrite Hup in Hu. injection Hu as <-.
    cbn [up_base64 up_path up_type up_file_url head].
    assert (Htruthy : truthy (VStr url) = true).
    { cbn. apply negb_true_iff, String.eqb_neq. congruence. }
    rewrite Htruthy. cbn [truthy].
    destruct (is_str (ref_type r) "Gallery").
    + exists (VStr url). done.
    + eexists. split; [| reflexivity]. done.
Qed.

Lemma reinsert_all_clears (rs : list blob_ref) (us : list upload_result) :
  Forall2 (λ r u, ∃ written,
             binary_leaves written = 0%nat
             ∧ ∀ data, reinsert data u
                       = update_object data written (ref_path r)) rs us →
  NoDup (ref_path <$> rs) →
  (∀ r r', r ∈ rs → r' ∈ rs → ref_path r ≠ ref_path r' →
           diverge (ref_path r) (ref_path r')) →
  ∀ data,
    is_binary data = false →
    Forall (λ r, ∃ leaf, leads_to data (ref_path r) leaf
                         ∧ is_binary leaf = true) rs →
    binary_leaves data = length rs →
    ∃ out, reinsert_all data us = Some out ∧ binary_leaves out = 0%nat.
Proof.
  induction 1 as [| r u rs us (written & Hwritten & Hreinsert) _ IH];
    intros Hnd Hdiv data Hroot Hleads Hcount.
  - exists data. done.
  - cbn [fmap list_fmap] in Hnd. apply NoDup_cons in Hnd as [Hr Hnd].
    apply Forall_cons in Hleads as [(leaf & Hleaf & Hbin) Hleads].
    assert (Hpath : ref_path r ≠ []).
    { intros Hnil. rewrite Hnil in Hleaf. cbn in Hleaf. congruence. }
    destruct (update_object_leaf data (ref_path r) leaf written Hpath Hleaf)
      as (data' & Hupdate & Hroot' & Hcount' & Hframe).
    cbn [reinsert_all]. rewrite Hreinsert, Hupdate. cbn [mbind option_bind].
    apply IH; [done | | done | |].
    + intros r1 r2 H1 H2. apply Hdiv; by right.
    + apply Forall_forall. intros r' Hr'.
      rewrite Forall_forall in Hleads.
      destruct (Hleads r' Hr') as (leaf' & Hleaf' & Hbin').
      exists leaf'. split; [| done]. apply Hframe; [| done].
      apply Hdiv; [by left | by right |].
      intros Heq. apply Hr. rewrite Heq. apply list_elem_of_fmap. eauto.
    + rewrite (is_binary_one leaf Hbin) in Hcount'. cbn [length] in Hcount. lia.
Qed.

(** The uploads and reinsertions of the references of [walk_refs], taken in
    any order, leave no binary leaf. *)
Lemma reinsert_refs_clears (data : value) (refs : list blob_ref) :
  distinct_keys data = true →
  is_binary data = false →
  refs ≡ₚ walk_refs pf data VUndefined [] true api_info →
  (∀ r, r ∈ refs →
        if is_str (ref_type r) "Image" then ref_data r ≠ VStr ""
        else ∃ url rest,
               upload_files pf (ref_blob r) = Some (url :: rest) ∧ url ≠ "") →
  ∃ out, reinsert_refs pf data refs = Some out ∧ binary_leaves out = 0%nat.
Proof.
  intros Hkeys Hroot Hperm Hgood. unfold reinsert_refs.
  assert (Hwalked : ∀ r, r ∈ refs →
            r ∈ walk_refs pf data VUndefined [] true api_info).
  { intros r Hr. by rewrite <- Hperm. }
  assert (Huploads : is_Some (mapM (upload_ref pf) refs)).
  { apply mapM_is_Some_2, Forall_forall. intros r Hr.
    pose proof (walk_populated pf api_info data _ _ _ r (Hwalked r Hr)) as Hpop.
    specialize (Hgood r Hr). unfold upload_ref. cbn.
    destruct (is_str (ref_type r) "Image").
    - destruct Hpop as [-> _]. by eexists.
    - destruct Hpop as [_ [bytes Hblob]], Hgood as (url & rest & Hup & _).
      rewrite Hblob in *. cbn. rewrite Hup. by eexists. }
  destruct Huploads as [us Hus]. rewrite Hus. cbn [mbind option_bind].
  apply mapM_Some_1 in Hus.
  assert (Hleads : ∀ r, r ∈ refs →
            ∃ leaf, leads_to data (ref_path r) leaf ∧ is_binary leaf = true).
  { intros r Hr.
    destruct (walk_leads data Hkeys _ _ _ r (Hwalked r Hr))
      as (suffix & leaf & -> & ? & ?).
    by exists leaf. }
  apply (reinsert_all_clears refs us).
  - eapply Forall2_impl_elem; [exact Hus |]. intros r u Hr Hu.
    apply reinsert_writes; [done | | by apply Hgood].
    by eapply walk_populated, Hwalked.
  - rewrite Hperm. by apply walk_paths_distinct.
  - intros r r' Hr Hr' Hne.
    destruct (Hleads r Hr) as (a & Ha & Hbina).
    destruct (Hleads r' Hr') as (b & Hb & Hbinb).
    by eapply binary_paths_diverge.
  - done.
  - by apply Forall_forall.
  - rewrite Hperm. symmetry. apply walk_length.
Qed.

(** X26.  For a payload in which no object has a property of its own named
    [hasOwnProperty]: when every image among the binary leaves encodes to a
    string that is not empty and every upload returns a handle that is not
    empty, [handle_blob] resolves, and with a payload that has no binary
    leaf left; so do the uploads and reinsertions in any other order of the
    references of the walk. *)
Theorem handle_blob_clears_binary (data : value) :
  distinct_keys data = true →
  is_binary data = false →
  own_method_free data = true →
  schema_readable api_info true data = true →
  (∀ walked r,
     walk_and_store_blobs pf data VUndefined [] true api_info = Some walked →
     r ∈ walked →
     if is_str (ref_type r) "Image" then ref_data r ≠ VStr ""
     else ∃ url rest,
            upload_files pf (ref_blob r) = Some (url :: rest) ∧ url ≠ "") →
  (∃ out, handle_blob pf data api_info = Some out ∧ binary_leaves out = 0%nat)
  ∧ ∃ walked,
      walk_and_store_blobs pf data VUndefined [] true api_info = Some walked
      ∧ ∀ refs,
          refs ≡ₚ walked →
          ∃ out, reinsert_refs pf data refs = Some out
                 ∧ binary_leaves out = 0%nat.
Proof.
  intros Hkeys Hroot Hfree Hread Hgood.
  pose proof (walk_returns pf api_info data VUndefined [] true Hfree Hread)
    as Hwalk.
  assert (Hany : ∀ refs,
            refs ≡ₚ walk_refs pf data VUndefined [] true api_info →
            ∃ out, reinsert_refs pf data refs = Some out
                   ∧ binary_leaves out = 0%nat).
  { intros refs Hperm. apply reinsert_refs_clears; [done | done | done |].
    intros r Hr. apply (Hgood _ r Hwalk). by rewrite <- Hperm. }
  split.
  - unfold handle_blob. rewrite Hwalk. cbn [mbind option_bind]. by apply Hany.
  - eexists. split; [exact Hwalk | exact Hany].
Qed.

(** X27.  An upload that fails leaves the promise of [handle_blob] pending: the
    submission never reaches its callback, so it posts nothing, opens no
    socket and fires no event. *)
Theorem failed_upload_stalls (c : client) (endpoint : endpoint_ref)
    (data event_data : value) (refs : list blob_ref) (r : blob_ref) :
  walk_and_store_blobs pf data VUndefined [] true
    (resolve_api_info (api c) endpoint) = Some refs →
  r ∈ refs →
  truthy (ref_blob r) = true →
  upload_files pf (ref_blob r) = None →
  let submitted := (step pf c (CallSubmit endpoint data event_data)).1 in
  handle_blob pf data (resolve_api_info (api c) endpoint) = None
  ∧ step pf submitted (BlobsHandled (length (submissions c))) = (submitted, []).
Proof.
  intros Hwalk Hr Hblob Hup submitted.
  assert (Hnone : handle_blob pf data (resolve_api_info (api c) endpoint) = None).
  { unfold handle_blob. rewrite Hwalk. cbn [mbind option_bind].
    unfold reinsert_refs.
    rewrite (mapM_None_2 (upload_ref pf)); [done |].
    apply Exists_exists. exists r. split; [done |].
    unfold upload_ref. by rewrite Hblob, Hup. }
  split; [done |]. unfold submitted. cbn [step fst with_submissions submissions].
  rewrite lookup_app_r, Nat.sub_diag by done. cbn [lookup list_lookup].
  cbn [submit sub_blobs]. by rewrite Hnone.
Qed.
End reinsertion.

(** ** The further properties at concrete clients *)

Lemma generating_failure_keeps_socket_witness :
  step sample_platform queued_session (FrameReceived 0 failed_generating_frame)
  = (queued_session,
     [Deliver 7
        (StatusEvent "/predict" (VNum 0)
           {| st_status := VStr "error"; st_queue := VBool true;
              st_message := VStr "boom"; st_size := VUndefined;
              st_position := VUndefined; st_eta := VUndefined;
              st_progress := VUndefined |})]).
Proof.
  refine (proj2 (generating_failure_keeps_socket sample_platform queued_session 0
                   queued_submission failed_generating_frame
                   eq_refl _ eq_refl eq_refl eq_refl)).
  discriminate.
Defined.

Lemma queue_full_closes_witness :
  (step sample_platform queued_session (FrameReceived 0 queue_full_frame)).2
  = [Deliver 7
       (StatusEvent "/predict" (VNum 0)
          (with_message (plain_status "error" true) (VStr QUEUE_FULL_MSG)));
     CloseSocket 0].
Proof.
  refine (proj1 (queue_full_closes sample_platform queued_session 0
                   queued_submission queue_full_frame eq_refl _ eq_refl)).
  discriminate.
Defined.

Lemma process_completed_success_witness :
  onmessage queued_session queued_submission completed_frame
  = Some [Fire (StatusEvent "/predict" (VNum 0)
                  (with_eta (plain_status "complete" true) (VNum 2)));
          Close;
          Fire (DataEvent "/predict" (VNum 0) (VArr [VStr "ok"]))].
Proof.
  exact (process_completed_success queued_session queued_submission
           completed_frame eq_refl eq_refl eq_refl).
Defined.

Lemma data_event_follows_status_witness :
  ∃ status data,
    onmessage queued_session queued_submission generating_frame
    = Some [Fire (StatusEvent "/predict" (VNum 0) status);
            Fire (DataEvent "/predict" (VNum 0) data)].
Proof.
  destruct (data_event_follows_status queued_session queued_submission
              generating_frame _ eq_refl) as [Hnone | (status & data & [H | H])].
  - apply Forall_cons in Hnone as [_ Hnone].
    apply Forall_cons in Hnone as [Hdata _]. discriminate.
  - exists status, data. exact (f_equal Some H).
  - discriminate.
Defined.

Lemma connection_failure_reported_witness :
  step sample_platform direct_session
    (PostReturned 0 (VObj [("error", VStr BROKEN_CONNECTION_MSG)]) 500)
  = (direct_session,
     [Deliver 7
        (StatusEvent "/predict" (VNum 0)
           (with_message (plain_status "error" false)
              (VStr BROKEN_CONNECTION_MSG)))]).
Proof.
  destruct (connection_failure_reported sample_platform direct_session 0 _ eq_refl)
    as (output & status_code & Hpost & Hstep).
  injection Hpost as <- <-. exact Hstep.
Defined.


Lemma handshake_replies_witness :
  (step sample_platform
     (step sample_platform queued_submitted (BlobsHandled 0)).1
     (FrameReceived 0 (VObj [("msg", VStr "send_data")]))).2
  = [SendFrame 0
       (VObj [("data", VArr [VStr "hi"]); ("event_data", VNull);
              ("fn_index", VNum 0); ("session_hash", VStr "k3x9")])].
Proof.
  exact (f_equal snd
           (proj2 (handshake_replies sample_platform queued_submitted 0 _ _
                     (VObj [("msg", VStr "send_hash")])
                     (VObj [("msg", VStr "send_data")])
                     eq_refl eq_refl eq_refl eq_refl eq_refl))).
Defined.

Lemma wake_poll_stops_witness :
  wake_poll true None (λ _, true) 1
    [PollStage "PAUSED" "user/space"; PollStage "RUNNING" "user/space"]
  = (0%nat,
     [StatusCallback
        {| sp_status := "space_error"; sp_load_status := "error";
           sp_message := "This space is experiencing an issue.";
           sp_detail := "PAUSED"; sp_discussions_enabled := Some true |}]).
Proof.
  refine (wake_poll_stops None (λ _, true) true
            (PollStage "PAUSED" "user/space")
            [PollStage "RUNNING" "user/space"] _).
  intros stage name [= <- <-] Hin. unfold waiting_stages in Hin.
  repeat (apply elem_of_cons in Hin as [Hin | Hin]; [discriminate |]).
  by apply elem_of_nil in Hin.
Defined.


Lemma file_ref_walked : file_ref ∈ [picture_ref; file_ref].
Proof. set_solver. Qed.

Lemma reference_type_from_path_witness :
  ref_type file_ref = expected_type (Entry image_endpoint) [KIdx 1; KKey "file"].
Proof.
  exact (reference_type_from_path sample_platform (Entry image_endpoint)
           mixed_payload [picture_ref; file_ref] file_ref
           walk_mixed_payload file_ref_walked).
Defined.

Lemma reference_populated_witness :
  truthy (ref_data file_ref) = false ∧ ∃ bytes, ref_blob file_ref = VBlob bytes.
Proof.
  exact (reference_populated sample_platform (Entry image_endpoint)
           mixed_payload [picture_ref; file_ref] file_ref
           walk_mixed_payload file_ref_walked).
Defined.

Lemma reference_paths_distinct_witness :
  NoDup [[KIdx 0]; [KIdx 1; KKey "file"]].
Proof.
  exact (reference_paths_distinct sample_platform (Entry image_endpoint)
           mixed_payload [picture_ref; file_ref] eq_refl walk_mixed_payload).
Defined.

Lemma handle_blob_clears_binary_witness :
  (∃ out,
     handle_blob sample_platform mixed_payload (Entry image_endpoint) = Some out
     ∧ binary_leaves out = 0%nat)
  ∧ ∃ out,
      reinsert_refs sample_platform mixed_payload [file_ref; picture_ref]
      = Some out
      ∧ binary_leaves out = 0%nat.
Proof.
  destruct (handle_blob_clears_binary sample_platform (Entry image_endpoint)
              mixed_payload eq_refl eq_refl eq_refl eq_refl)
    as [Hout (walked & Hwalk & Hany)].
  - intros walked r [= <-].
    rewrite !elem_of_cons, elem_of_nil. intros [-> | [-> | []]].
    + discriminate.
    + exists "/tmp/upload0", []. split; [reflexivity | discriminate].
  - split; [exact Hout |]. injection Hwalk as <-.
    exact (Hany [file_ref; picture_ref] (perm_swap picture_ref file_ref [])).
Defined.

Lemma failed_upload_stalls_witness :
  handle_blob offline_platform mixed_payload NoEntry = None.
Proof.
  refine (proj1 (failed_upload_stalls offline_platform
                   (fresh_client direct_config no_schema two_names)
                   (EIndex 0) mixed_payload VNull _
                   {| ref_path := [KIdx 1; KKey "file"];
                      ref_blob := VBlob [1; 2; 3]%Z;
                      ref_data := VUndefined; ref_type := VUndefined |}
                   eq_refl _ eq_refl eq_refl)).
  set_solver.
Defined.
